(** * Mumble audio packets: varints, packet codec and the stream adapter

    A shallow embedding of [extensions/mumble/src/mumble-audio.ts].

    Conventions of the embedding:
    - a Node [Buffer] is a [list byte]; a byte read from a buffer is the
      number [Z_of_byte b] in [0, 255]; [Buffer.from(number[])] keeps the
      low 8 bits of every element;
    - a JavaScript number that holds an integer is a [Z] (exact for
      magnitudes below 2^53, which every counter and length here respects);
    - the bitwise operators work on 32-bit integers as ECMAScript defines
      them: operands go through [ToInt32] (or [ToUint32] for [>>>]) and
      shift counts are taken modulo 32;
    - lengths, offsets and byte counts are [nat]. *)

From Stdlib Require Import ZArith List Bool Lia.
From Stdlib Require Import Strings.Byte.
Import ListNotations.

Local Open Scope Z_scope.

(** ** Bytes and buffers *)

Definition Buffer := list byte.

Definition Z_of_byte (b : byte) : Z := Z.of_N (Byte.to_N b).

(** One element of [Buffer.from(number[])]: the value modulo 256. *)
Definition byte_of_Z (z : Z) : byte :=
  match Byte.of_N (Z.to_N (Z.land z 255)) with
  | Some b => b
  | None => x00
  end.

Definition Buffer_from (l : list Z) : Buffer := map byte_of_Z l.

(** [buffer[i]] for an index inside the buffer. *)
Definition Buffer_get (buffer : Buffer) (i : nat) : Z :=
  Z_of_byte (nth i buffer x00).

(** [buffer.subarray(start, end)]. *)
Definition subarray (buffer : Buffer) (start stop : nat) : Buffer :=
  firstn (stop - start) (skipn start buffer).

(** [buffer.subarray(start)]. *)
Definition subarray_from (buffer : Buffer) (start : nat) : Buffer :=
  skipn start buffer.

(** ** 32-bit integer operators of JavaScript *)

Module JS.

Definition ToInt32 (z : Z) : Z := (z + 2 ^ 31) mod 2 ^ 32 - 2 ^ 31.
Definition ToUint32 (z : Z) : Z := z mod 2 ^ 32.

(** [a & b] *)
Definition and (a b : Z) : Z := Z.land (ToInt32 a) (ToInt32 b).
(** [a | b] *)
Definition or (a b : Z) : Z := Z.lor (ToInt32 a) (ToInt32 b).
(** [a << n] *)
Definition shl (a n : Z) : Z :=
  ToInt32 (Z.shiftl (ToInt32 a) (ToUint32 n mod 32)).
(** [a >> n] *)
Definition shr (a n : Z) : Z := Z.shiftr (ToInt32 a) (ToUint32 n mod 32).
(** [a >>> n] *)
Definition ushr (a n : Z) : Z := Z.shiftr (ToUint32 a) (ToUint32 n mod 32).

End JS.

(** ** Varint codec *)

Record VarintResult := mkVarint { value : Z; bytesRead : nat }.

(** The [while] loop of [readVarint].  Every iteration consumes one byte, so
    the loop body runs at most [buffer.length] times; [fuel] counts the
    iterations still allowed. *)
Fixpoint readVarint_loop (fuel : nat) (buffer : Buffer) (offset : nat)
    (value : Z) (bytesRead : nat) (shift : Z) : VarintResult :=
  match fuel with
  | O => mkVarint value bytesRead
  | S fuel' =>
      if (offset + bytesRead <? length buffer)%nat then
        let byte := Buffer_get buffer (offset + bytesRead) in
        let value := JS.or value (JS.shl (JS.and byte 0x7f) shift) in
        let bytesRead := S bytesRead in
        if JS.and byte 0x80 =? 0 then mkVarint value bytesRead
        else readVarint_loop fuel' buffer offset value bytesRead (shift + 7)
      else mkVarint value bytesRead
  end.

Definition readVarint (buffer : Buffer) (offset : nat) : VarintResult :=
  readVarint_loop (S (length buffer)) buffer offset 0 0%nat 0.

(** The same loop as a recursion on the bytes that are left, the form the
    proofs work with ([readVarint_skipn] relates the two). *)
Fixpoint readVarint_from (rest : Buffer) (value : Z) (bytesRead : nat)
    (shift : Z) : VarintResult :=
  match rest with
  | [] => mkVarint value bytesRead
  | b :: rest' =>
      let byte := Z_of_byte b in
      let value := JS.or value (JS.shl (JS.and byte 0x7f) shift) in
      if JS.and byte 0x80 =? 0 then mkVarint value (S bytesRead)
      else readVarint_from rest' value (S bytesRead) (shift + 7)
  end.

(** The [while (value > 0x7f)] loop of [writeVarint], returning the pushed
    numbers.  [value >>>= 7] leaves a number below 2^25, so five iterations
    always reach the exit ([writeVarint_fuel]). *)
Fixpoint writeVarint_loop (fuel : nat) (value : Z) : list Z :=
  match fuel with
  | O => [JS.and value 0x7f]
  | S fuel' =>
      if 0x7f <? value then
        JS.or (JS.and value 0x7f) 0x80 :: writeVarint_loop fuel' (JS.ushr value 7)
      else [JS.and value 0x7f]
  end.

Definition writeVarint (value : Z) : Buffer :=
  Buffer_from (writeVarint_loop 5 value).

(** What the description of the decoder says the value is: byte number [i]
    contributes its low seven bits shifted left by [7 * i], combined by
    bitwise or. *)
Fixpoint accumulate (bytes : Buffer) (acc : Z) (shift : Z) : Z :=
  match bytes with
  | [] => acc
  | b :: bytes' =>
      accumulate bytes' (JS.or acc (JS.shl (JS.and (Z_of_byte b) 0x7f) shift))
        (shift + 7)
  end.

(** The continuation bit of a byte. *)
Definition continues (b : byte) : bool := negb (JS.and (Z_of_byte b) 0x80 =? 0).

(** ** Audio packet codec *)

Inductive AudioCodec := CELT_Alpha | Ping | Speex | CELT_Beta | Opus.

(** The numeric value of an enum member. *)
Definition codec_tag (c : AudioCodec) : Z :=
  match c with
  | CELT_Alpha => 0
  | Ping => 1
  | Speex => 2
  | CELT_Beta => 3
  | Opus => 4
  end.

Record FullAudioPacket := mkPacket {
  source : Z;
  codec : Z;
  target : Z;
  sequence : Z;
  audioData : Buffer;
  isTerminator : bool
}.

(** [(header >> 5) & 0x07] and [header & 0x1f]. *)
Definition header_codec (header : Z) : Z := JS.and (JS.shr header 5) 0x07.
Definition header_target (header : Z) : Z := JS.and header 0x1f.

Definition parseAudioPacket (data : Buffer) : option FullAudioPacket :=
  if (length data <? 1)%nat then None
  else
    let header := Buffer_get data 0 in
    let codec := header_codec header in
    let target := header_target header in
    let session := readVarint data 1 in
    let offset := (1 + bytesRead session)%nat in
    let sequence := readVarint data offset in
    let offset := (offset + bytesRead sequence)%nat in
    if codec =? codec_tag Opus then
      let opusHeader := readVarint data offset in
      let offset := (offset + bytesRead opusHeader)%nat in
      let isTerminator := negb (JS.and (value opusHeader) 0x2000 =? 0) in
      let audioLength := JS.and (value opusHeader) 0x1fff in
      if Z.of_nat (length data) <? Z.of_nat offset + audioLength then None
      else
        Some (mkPacket (value session) codec target (value sequence)
                (subarray data offset (offset + Z.to_nat audioLength))
                isTerminator)
    else
      Some (mkPacket (value session) codec target (value sequence)
              (subarray_from data offset) false).

Definition createAudioPacket (codec : AudioCodec) (target sequence : Z)
    (audioData : Buffer) (isTerminator : bool) : Buffer :=
  let header := JS.or (JS.shl (JS.and (codec_tag codec) 0x07) 5) (JS.and target 0x1f) in
  let sequenceVarint := writeVarint sequence in
  if codec_tag codec =? codec_tag Opus then
    let lengthValue := JS.and (Z.of_nat (length audioData)) 0x1fff in
    let lengthValue := if isTerminator then JS.or lengthValue 0x2000 else lengthValue in
    let lengthVarint := writeVarint lengthValue in
    Buffer_from [header] ++ sequenceVarint ++ lengthVarint ++ audioData
  else
    Buffer_from [header] ++ sequenceVarint ++ audioData.

(** An audio packet as a server relays it to the other clients: the varint
    of the speaker's session is put right after the header byte.  This is
    the layout [parseAudioPacket] reads; [createAudioPacket] builds the
    client-to-server layout, which has no session field. *)
Definition relayed (session : Z) (packet : Buffer) : Buffer :=
  match packet with
  | [] => []
  | header :: rest => header :: writeVarint session ++ rest
  end.

(** ** Fixed-width writers of Node's [Buffer], used for the tunnel prefix *)

Definition Buffer_alloc (n : nat) : Buffer := repeat x00 n.

(** Overwrite [bytes] into [buffer] at [offset]. *)
Definition splice (buffer : Buffer) (offset : nat) (bytes : Buffer) : Buffer :=
  firstn offset buffer ++ bytes ++ skipn (offset + length bytes) buffer.

(** [buffer.writeUInt16BE(value, offset)]; [None] is the [RangeError] Node
    throws for a value or offset out of range. *)
Definition writeUInt16BE (buffer : Buffer) (value : Z) (offset : nat) : option Buffer :=
  if (0 <=? value) && (value <=? 0xffff) && (offset + 2 <=? length buffer)%nat then
    Some (splice buffer offset
            (Buffer_from [Z.shiftr value 8; value]))
  else None.

(** [buffer.writeUInt32BE(value, offset)]. *)
Definition writeUInt32BE (buffer : Buffer) (value : Z) (offset : nat) : option Buffer :=
  if (0 <=? value) && (value <=? 0xffffffff) && (offset + 4 <=? length buffer)%nat then
    Some (splice buffer offset
            (Buffer_from [Z.shiftr value 24; Z.shiftr value 16; Z.shiftr value 8; value]))
  else None.

(** The unsigned number a byte string denotes when read big-endian. *)
Definition big_endian (bytes : Buffer) : Z :=
  fold_left (fun acc b => acc * 256 + Z_of_byte b) bytes 0.

(** ** The stream adapter *)

Module MumbleAudioStream.

(** Function objects live in a store and are named by their address, so
    that two functions are the same reference exactly when the addresses
    are equal.  A function of the host client is opaque: calling it is
    recorded as an event.  [BoundFn] is what [f.bind(socket)] allocates and
    [HookFn] is the arrow function installed by [hookAudioDecoding]. *)
Definition addr := nat.

Inductive FnObj :=
| HostFn
| BoundFn (target : addr)
| HookFn.

(** The value of the socket's [decodeAudio] property. *)
Inductive JsValue :=
| VFunction (f : addr)
| VOther.

(** The receiver of a call: the socket, or the stream when the hook calls
    [this.originalDecodeAudio(data)]. *)
Inductive ThisArg := ThisSocket | ThisStream.

Inductive Error :=
| RangeError
| TransportError (code : nat).

(** How the promise returned by [sendAudio] or [socket.write] settles. *)
Inductive Outcome :=
| Resolved
| Rejected (e : Error).

(** Observable effects, oldest first. *)
Inductive Event :=
| EvNext (packet : FullAudioPacket)      (* audioSubject delivers to its subscribers *)
| EvComplete                              (* audioSubject signals completion *)
| EvHostCall (f : addr) (this : ThisArg) (data : Buffer)
| EvWrite (data : Buffer).                (* socket.write(data) *)

Record Socket := mkSocket {
  functions : list FnObj;
  decodeAudio : JsValue;
  write : Buffer -> Outcome
}.

Record Stream := mkStream {
  socket : Socket;
  audioSubject_isStopped : bool;
  sequence : Z;
  originalDecodeAudio : option addr;
  events : list Event
}.

Definition emit (e : Event) (s : Stream) : Stream :=
  mkStream (socket s) (audioSubject_isStopped s) (sequence s)
    (originalDecodeAudio s) (events s ++ [e]).

Definition set_decodeAudio (v : JsValue) (s : Stream) : Stream :=
  mkStream (mkSocket (functions (socket s)) v (write (socket s)))
    (audioSubject_isStopped s) (sequence s) (originalDecodeAudio s) (events s).

(** [audioSubject.next(packet)]: a stopped subject delivers nothing. *)
Definition audioSubject_next (packet : FullAudioPacket) (s : Stream) : Stream :=
  if audioSubject_isStopped s then s else emit (EvNext packet) s.

(** [audioSubject.complete()]: only the first call has an effect. *)
Definition audioSubject_complete (s : Stream) : Stream :=
  if audioSubject_isStopped s then s
  else
    emit EvComplete
      (mkStream (socket s) true (sequence s) (originalDecodeAudio s) (events s)).

Definition hookAudioDecoding (s : Stream) : Stream :=
  match decodeAudio (socket s) with
  | VFunction f =>
      let bound := length (functions (socket s)) in
      let hook := S bound in
      mkStream
        (mkSocket (functions (socket s) ++ [BoundFn f; HookFn])
           (VFunction hook) (write (socket s)))
        (audioSubject_isStopped s) (sequence s) (Some bound) (events s)
  | VOther => s
  end.

Definition constructor (socket : Socket) : Stream :=
  hookAudioDecoding (mkStream socket false 0 None []).

(** Calling the function object at address [f] with one buffer.  The
    chain of calls follows bound targets and the hook's saved original;
    [fuel] bounds its depth. *)
Fixpoint invoke (fuel : nat) (s : Stream) (f : addr) (this : ThisArg)
    (data : Buffer) : Stream :=
  match fuel with
  | O => s
  | S fuel' =>
      match nth_error (functions (socket s)) f with
      | None => s
      | Some HostFn => emit (EvHostCall f this data) s
      | Some (BoundFn target) => invoke fuel' s target ThisSocket data
      | Some HookFn =>
          let s :=
            match parseAudioPacket data with
            | Some packet => audioSubject_next packet s
            | None => s
            end in
          match originalDecodeAudio s with
          | Some original => invoke fuel' s original ThisStream data
          | None => s
          end
      end
  end.

(** The host transport hands a raw tunnel frame to [socket.decodeAudio]. *)
Definition inbound (s : Stream) (data : Buffer) : Stream :=
  match decodeAudio (socket s) with
  | VFunction f => invoke (S (length (functions (socket s)))) s f ThisSocket data
  | VOther => s
  end.

Definition sendAudio (s : Stream) (audioData : Buffer) (codec : AudioCodec)
    (target : Z) (isTerminator : bool) : Outcome * Stream :=
  let sequence0 := sequence s in
  let s := mkStream (socket s) (audioSubject_isStopped s) (sequence0 + 1)
             (originalDecodeAudio s) (events s) in
  let packet := createAudioPacket codec target sequence0 audioData isTerminator in
  let prefix := Buffer_alloc 6 in
  match writeUInt16BE prefix 1 0 with
  | None => (Rejected RangeError, s)
  | Some prefix =>
      match writeUInt32BE prefix (Z.of_nat (length packet)) 2 with
      | None => (Rejected RangeError, s)
      | Some prefix =>
          let wire := prefix ++ packet in
          (write (socket s) wire, emit (EvWrite wire) s)
      end
  end.

Definition destroy (s : Stream) : Stream :=
  let s := audioSubject_complete s in
  match originalDecodeAudio s with
  | Some original => set_decodeAudio (VFunction original) s
  | None => s
  end.

(** What can happen to a stream after its construction. *)
Inductive Op :=
| Send (audioData : Buffer) (codec : AudioCodec) (target : Z) (isTerminator : bool)
| Inbound (data : Buffer)
| Destroy.

Definition step (s : Stream) (op : Op) : Stream :=
  match op with
  | Send audioData codec target isTerminator =>
      snd (sendAudio s audioData codec target isTerminator)
  | Inbound data => inbound s data
  | Destroy => destroy s
  end.

Definition run (ops : list Op) (s : Stream) : Stream := fold_left step ops s.

Definition is_send (op : Op) : bool :=
  match op with Send _ _ _ _ => true | _ => false end.

Definition is_destroy (op : Op) : bool :=
  match op with Destroy => true | _ => false end.

End MumbleAudioStream.

(** ** States of a stream built on a socket

    [sock0] is the socket as the constructor found it, with a function at
    address [a0] in its [decodeAudio] property. *)

Module Wiring.
Import MumbleAudioStream.

(** Address of the bound copy the constructor allocates, and of the hook. *)
Definition bound_addr (sock0 : Socket) : addr := length (functions sock0).
Definition hook_addr (sock0 : Socket) : addr := S (length (functions sock0)).

Definition wired (sock0 : Socket) (a0 : addr) (s : Stream) : Prop :=
  functions (socket s) = functions sock0 ++ [BoundFn a0; HookFn] /\
  write (socket s) = write sock0 /\
  originalDecodeAudio s = Some (bound_addr sock0).

(** Constructed and not yet destroyed. *)
Definition attached (sock0 : Socket) (a0 : addr) (s : Stream) : Prop :=
  wired sock0 a0 s /\
  decodeAudio (socket s) = VFunction (hook_addr sock0) /\
  audioSubject_isStopped s = false.

(** After [destroy]. *)
Definition destroyed (sock0 : Socket) (a0 : addr) (s : Stream) : Prop :=
  wired sock0 a0 s /\
  decodeAudio (socket s) = VFunction (bound_addr sock0) /\
  audioSubject_isStopped s = true.

(** The parts of a stream that sending and receiving leave alone. *)
Definition same_wiring (s s' : Stream) : Prop :=
  socket s' = socket s /\
  audioSubject_isStopped s' = audioSubject_isStopped s /\
  originalDecodeAudio s' = originalDecodeAudio s.

(** The tunnel frame [sendAudio] hands to the transport for a packet. *)
Definition tunnel_frame (packet : Buffer) : Buffer :=
  let L := Z.of_nat (length packet) in
  [x00; x01]
  ++ Buffer_from [Z.shiftr L 24; Z.shiftr L 16; Z.shiftr L 8; L]
  ++ packet.

End Wiring.

(** ** Reading the event history *)

Module Trace.
Import MumbleAudioStream Wiring.

(** [sendAudio] called with some of its optional arguments left out: a
    missing [codec] is Opus, a missing [target] is 0 and a missing
    [isTerminator] is false. *)
Definition sendAudio_optional (s : Stream) (audioData : Buffer)
    (codec : option AudioCodec) (target : option Z)
    (isTerminator : option bool) : Outcome * Stream :=
  sendAudio s audioData
    (match codec with Some c => c | None => Opus end)
    (match target with Some t => t | None => 0 end)
    (match isTerminator with Some b => b | None => false end).

(** Events that reach the subscribers of [fullAudioPacket]. *)
Definition is_subscriber_event (e : Event) : bool :=
  match e with
  | EvNext _ | EvComplete => true
  | _ => false
  end.

Definition is_complete (e : Event) : bool :=
  match e with EvComplete => true | _ => false end.

(** The frames the host handler was called with, oldest first. *)
Fixpoint host_frames (evs : list Event) : list Buffer :=
  match evs with
  | [] => []
  | EvHostCall _ _ data :: evs' => data :: host_frames evs'
  | _ :: evs' => host_frames evs'
  end.

(** The packets delivered to the subscribers, oldest first. *)
Fixpoint delivered (evs : list Event) : list FullAudioPacket :=
  match evs with
  | [] => []
  | EvNext packet :: evs' => packet :: delivered evs'
  | _ :: evs' => delivered evs'
  end.

(** The buffers handed to [socket.write], oldest first. *)
Fixpoint written (evs : list Event) : list Buffer :=
  match evs with
  | [] => []
  | EvWrite data :: evs' => data :: written evs'
  | _ :: evs' => written evs'
  end.

(** The raw frames among the operations, in order. *)
Fixpoint inbound_frames (ops : list Op) : list Buffer :=
  match ops with
  | [] => []
  | Inbound data :: ops' => data :: inbound_frames ops'
  | _ :: ops' => inbound_frames ops'
  end.

(** The operations that come before the first [Destroy]. *)
Fixpoint before_destroy (ops : list Op) : list Op :=
  match ops with
  | [] => []
  | Destroy :: _ => []
  | op :: ops' => op :: before_destroy ops'
  end.

(** The packets of the frames that parse, in order. *)
Definition parsed (frames : list Buffer) : list FullAudioPacket :=
  flat_map (fun data => match parseAudioPacket data with
                        | Some packet => [packet]
                        | None => []
                        end) frames.

(** The tunnel frames of the sends among the operations when the first of
    them is numbered [n]: one frame per send whose packet fits the 32-bit
    length of the prefix, each send taking the next number. *)
Fixpoint numbered_frames (n : Z) (ops : list Op) : list Buffer :=
  match ops with
  | [] => []
  | Send audioData c t term :: ops' =>
      let packet := createAudioPacket c t n audioData term in
      (if Z.of_nat (length packet) <=? 0xffffffff
       then [tunnel_frame packet] else [])
      ++ numbered_frames (n + 1) ops'
  | _ :: ops' => numbered_frames n ops'
  end.

End Trace.

(** * Properties *)

(** ** Bytes *)

Lemma Z_of_byte_range (b : byte) : 0 <= Z_of_byte b < 256.
Proof.
  unfold Z_of_byte. pose proof (Byte.to_N_bounded b). lia.
Qed.

Lemma Z_of_byte_of_Z (z : Z) : 0 <= z < 256 -> Z_of_byte (byte_of_Z z) = z.
Proof.
  intros Hz. unfold Z_of_byte, byte_of_Z.
  change 255 with (Z.ones 8). rewrite Z.land_ones by lia.
  rewrite Z.mod_small by (change (2 ^ 8) with 256; lia).
  destruct (Byte.of_N (Z.to_N z)) as [b|] eqn:E.
  - apply Byte.to_of_N in E. rewrite E. lia.
  - apply Byte.of_N_None_iff in E. lia.
Qed.

Lemma skipn_nth_cons {A : Type} (d : A) (l : list A) (i : nat) :
  (i < length l)%nat -> skipn i l = nth i l d :: skipn (S i) l.
Proof.
  revert i. induction l as [|x l IH]; intros i Hi; simpl in Hi.
  - lia.
  - destruct i as [|i]; [reflexivity|].
    change (skipn i l = nth i l d :: skipn (S i) l). apply IH. lia.
Qed.

(** ** 32-bit operators on small operands *)

Lemma ToInt32_small (z : Z) : - 2 ^ 31 <= z < 2 ^ 31 -> JS.ToInt32 z = z.
Proof.
  intros Hz. unfold JS.ToInt32. rewrite Z.mod_small; lia.
Qed.

Lemma ToInt32_range (z : Z) : - 2 ^ 31 <= JS.ToInt32 z < 2 ^ 31.
Proof.
  unfold JS.ToInt32.
  pose proof (Z.mod_pos_bound (z + 2 ^ 31) (2 ^ 32) ltac:(lia)). lia.
Qed.

Lemma and_0x7f (z : Z) : JS.and z 0x7f = JS.ToInt32 z mod 128.
Proof.
  unfold JS.and. rewrite (ToInt32_small 0x7f) by lia.
  change 0x7f with (Z.ones 7). rewrite Z.land_ones by lia. reflexivity.
Qed.

Lemma and_0x7f_range (z : Z) : 0 <= JS.and z 0x7f < 128.
Proof.
  rewrite and_0x7f. apply Z.mod_pos_bound. lia.
Qed.

Lemma lor_add (a b : Z) : Z.land a b = 0 -> Z.lor a b = a + b.
Proof.
  intros H. pose proof (Z.add_lor_land a b) as E. rewrite H in E. lia.
Qed.

Lemma land_small_128 (z : Z) : 0 <= z < 128 -> Z.land z 128 = 0.
Proof.
  intros Hz.
  replace z with (Z.land z (Z.ones 7))
    by (rewrite Z.land_ones by lia; apply Z.mod_small; change (2 ^ 7) with 128; lia).
  rewrite <- Z.land_assoc. change (Z.land (Z.ones 7) 128) with 0.
  apply Z.land_0_r.
Qed.

Lemma and_0x80_small (z : Z) : 0 <= z < 128 -> JS.and z 0x80 = 0.
Proof.
  intros Hz. unfold JS.and. rewrite !ToInt32_small by lia.
  apply land_small_128; assumption.
Qed.

(** A continuation byte [(m | 0x80)] with [m] below 128. *)
Lemma continuation_byte (m : Z) :
  0 <= m < 128 ->
  JS.or m 0x80 = m + 128 /\
  JS.and (m + 128) 0x7f = m /\
  JS.and (m + 128) 0x80 <> 0.
Proof.
  intros Hm.
  assert (Hor : Z.lor m 128 = m + 128).
  { apply lor_add. apply land_small_128; assumption. }
  split; [|split].
  - unfold JS.or. rewrite !ToInt32_small by lia. exact Hor.
  - rewrite and_0x7f, ToInt32_small by lia.
    replace (m + 128) with (m + 1 * 128) by lia.
    rewrite Z.mod_add by lia. apply Z.mod_small; lia.
  - unfold JS.and. rewrite !ToInt32_small by lia. rewrite <- Hor.
    rewrite Z.land_lor_distr_l. change (Z.land 128 128) with 128.
    intros H0. apply Z.lor_eq_0_iff in H0. lia.
Qed.

Lemma lor_disjoint (acc x s : Z) :
  0 <= s -> 0 <= acc < 2 ^ s -> Z.lor acc (Z.shiftl x s) = acc + x * 2 ^ s.
Proof.
  intros Hs Hacc. rewrite <- Z.shiftl_mul_pow2 by lia.
  apply lor_add.
  apply Z.bits_inj'. intros n Hn.
  rewrite Z.land_spec, Z.bits_0.
  destruct (Z.ltb_spec n s) as [Hlt|Hge].
  - rewrite (Z.shiftl_spec_low x s n) by lia. apply andb_false_r.
  - replace acc with (acc mod 2 ^ s) by (apply Z.mod_small; lia).
    rewrite Z.mod_pow2_bits_high by lia. reflexivity.
Qed.

(** One accumulation step of the reader when nothing overflows. *)
Lemma accumulate_step (acc x s : Z) :
  0 <= s <= 30 -> 0 <= acc < 2 ^ s -> 0 <= x -> acc + x * 2 ^ s < 2 ^ 31 ->
  JS.or acc (JS.shl x s) = acc + x * 2 ^ s.
Proof.
  intros Hs Hacc Hx Hlt.
  assert (H2s : 0 < 2 ^ s) by (apply Z.pow_pos_nonneg; lia).
  assert (Hxs : 0 <= x * 2 ^ s) by nia.
  assert (Hx31 : x < 2 ^ 31) by nia.
  unfold JS.or, JS.shl, JS.ToUint32.
  rewrite (Z.mod_small s (2 ^ 32)) by lia.
  rewrite (Z.mod_small s 32) by lia.
  rewrite (ToInt32_small x) by lia.
  rewrite (ToInt32_small acc) by lia.
  rewrite Z.shiftl_mul_pow2 by lia.
  rewrite (ToInt32_small (x * 2 ^ s)) by lia.
  rewrite (ToInt32_small (x * 2 ^ s)) by lia.
  rewrite <- (lor_disjoint acc x s) by lia.
  rewrite Z.shiftl_mul_pow2 by lia. reflexivity.
Qed.

Lemma ushr_7 (z : Z) : JS.ushr z 7 = (z mod 2 ^ 32) / 128.
Proof.
  unfold JS.ushr, JS.ToUint32.
  change (7 mod 2 ^ 32 mod 32) with 7.
  rewrite Z.shiftr_div_pow2 by lia. reflexivity.
Qed.

Lemma ushr_7_small (z : Z) : 0 <= z < 2 ^ 32 -> JS.ushr z 7 = z / 128.
Proof.
  intros Hz. rewrite ushr_7, Z.mod_small by lia. reflexivity.
Qed.

Lemma ushr_7_range (z : Z) : 0 <= JS.ushr z 7 < 2 ^ 25.
Proof.
  rewrite ushr_7.
  pose proof (Z.mod_pos_bound z (2 ^ 32) ltac:(lia)) as Hm.
  split.
  - apply Z.div_pos; lia.
  - apply Z.div_lt_upper_bound; lia.
Qed.

(** ** The varint reader as a recursion on the remaining bytes *)

Lemma readVarint_loop_from (fuel : nat) :
  forall (buffer : Buffer) (offset : nat) (v : Z) (k : nat) (shift : Z),
    (length buffer - (offset + k) <= fuel)%nat ->
    readVarint_loop fuel buffer offset v k shift =
    readVarint_from (skipn (offset + k) buffer) v k shift.
Proof.
  induction fuel as [|fuel IH]; intros buffer offset v k shift Hfuel.
  - rewrite skipn_all2 by lia. reflexivity.
  - cbn [readVarint_loop].
    destruct (Nat.ltb_spec (offset + k) (length buffer)) as [Hlt|Hge].
    + rewrite (skipn_nth_cons x00) by exact Hlt.
      cbn [readVarint_from]. unfold Buffer_get.
      destruct (JS.and (Z_of_byte (nth (offset + k) buffer x00)) 128 =? 0);
        [reflexivity|].
      rewrite IH by lia. rewrite Nat.add_succ_r. reflexivity.
    + rewrite skipn_all2 by lia. reflexivity.
Qed.

Lemma readVarint_skipn (buffer : Buffer) (offset : nat) :
  readVarint buffer offset = readVarint_from (skipn offset buffer) 0 0%nat 0.
Proof.
  unfold readVarint. rewrite readVarint_loop_from by lia.
  rewrite Nat.add_0_r. reflexivity.
Qed.

(** More fuel than the buffer has bytes changes nothing: the loop of
    [readVarint] has always left through its own exits. *)
Lemma readVarint_fuel (fuel : nat) (buffer : Buffer) (offset : nat) :
  (length buffer <= fuel)%nat ->
  readVarint_loop fuel buffer offset 0 0%nat 0 = readVarint buffer offset.
Proof.
  intros Hfuel. rewrite readVarint_skipn, readVarint_loop_from by lia.
  rewrite Nat.add_0_r. reflexivity.
Qed.

(** ** The varint writer needs at most five bytes *)

Lemma writeVarint_loop_enough (n : nat) :
  forall (fuel : nat) (w : Z),
    w < 128 ^ Z.of_nat (S n) -> (n <= fuel)%nat ->
    writeVarint_loop fuel w = writeVarint_loop n w.
Proof.
  induction n as [|n IH]; intros fuel w Hw Hfuel.
  - change (128 ^ Z.of_nat 1) with 128 in Hw.
    destruct fuel as [|fuel]; [reflexivity|].
    cbn [writeVarint_loop].
    destruct (Z.ltb_spec 0x7f w); [lia|reflexivity].
  - destruct fuel as [|fuel]; [lia|].
    cbn [writeVarint_loop].
    destruct (Z.ltb_spec 0x7f w) as [Hbig|Hsmall]; [|reflexivity].
    f_equal. apply IH; [|lia].
    rewrite ushr_7.
    pose proof (Z.mod_pos_bound w (2 ^ 32) ltac:(lia)) as Hm.
    assert (Hle : w mod 2 ^ 32 <= w) by (apply Z.mod_le; lia).
    apply Z.div_lt_upper_bound; [lia|].
    replace (Z.of_nat (S (S n))) with (Z.of_nat (S n) + 1) in Hw by lia.
    rewrite Z.pow_add_r in Hw by lia.
    change (128 ^ 1) with 128 in Hw. lia.
Qed.

Lemma writeVarint_loop_S (fuel : nat) (v : Z) :
  writeVarint_loop (S fuel) v =
  if 0x7f <? v then
    JS.or (JS.and v 0x7f) 0x80 :: writeVarint_loop fuel (JS.ushr v 7)
  else [JS.and v 0x7f].
Proof. reflexivity. Qed.

Lemma writeVarint_fuel (fuel : nat) (v : Z) :
  (4 <= fuel)%nat -> writeVarint_loop fuel v = writeVarint_loop 5 v.
Proof.
  intros Hfuel.
  assert (Hstep : forall f, (4 <= f)%nat ->
            writeVarint_loop f v = writeVarint_loop 4 v).
  { intros f Hf. destruct f as [|f]; [lia|].
    rewrite (writeVarint_loop_S f), (writeVarint_loop_S 3).
    destruct (Z.ltb_spec 0x7f v) as [Hbig|Hsmall]; [|reflexivity].
    f_equal. apply writeVarint_loop_enough; [|lia].
    pose proof (ushr_7_range v) as Hr.
    change (128 ^ Z.of_nat 4) with (2 ^ 28). lia. }
  rewrite (Hstep fuel) by exact Hfuel. rewrite (Hstep 5%nat) by lia.
  reflexivity.
Qed.

Lemma writeVarint_loop_nonempty (fuel : nat) (v : Z) :
  (1 <= length (writeVarint_loop fuel v))%nat.
Proof.
  destruct fuel as [|fuel]; cbn [writeVarint_loop]; [simpl; lia|].
  destruct (0x7f <? v); simpl; lia.
Qed.

(** ** Reading back what the writer wrote *)

Lemma read_written_loop (fuel : nat) :
  forall (w acc : Z) (k : nat) (s : Z) (rest : Buffer),
    0 <= w -> w < 128 ^ Z.of_nat (S fuel) ->
    0 <= s <= 30 -> 0 <= acc < 2 ^ s -> acc + w * 2 ^ s < 2 ^ 31 ->
    readVarint_from (Buffer_from (writeVarint_loop fuel w) ++ rest) acc k s =
    mkVarint (acc + w * 2 ^ s) (k + length (writeVarint_loop fuel w)).
Proof.
  assert (Hlast : forall (w acc : Z) (k : nat) (s : Z) (rest : Buffer),
            0 <= w < 128 -> 0 <= s <= 30 -> 0 <= acc < 2 ^ s ->
            acc + w * 2 ^ s < 2 ^ 31 ->
            readVarint_from (Buffer_from [JS.and w 0x7f] ++ rest) acc k s =
            mkVarint (acc + w * 2 ^ s) (k + 1)).
  { intros w acc k s rest Hw Hs Hacc Hlt.
    assert (Hand : JS.and w 0x7f = w)
      by (rewrite and_0x7f, ToInt32_small by lia; apply Z.mod_small; lia).
    rewrite Hand. cbn [Buffer_from map app readVarint_from].
    rewrite Z_of_byte_of_Z by lia.
    rewrite and_0x80_small by lia. rewrite Hand.
    rewrite accumulate_step by lia.
    rewrite Z.eqb_refl, Nat.add_1_r. reflexivity. }
  induction fuel as [|fuel IH]; intros w acc k s rest Hw0 Hw Hs Hacc Hlt.
  - change (128 ^ Z.of_nat 1) with 128 in Hw.
    cbn [writeVarint_loop length]. apply Hlast; lia.
  - cbn [writeVarint_loop].
    destruct (Z.ltb_spec 0x7f w) as [Hbig|Hsmall];
      [|cbn [length]; apply Hlast; lia].
    assert (H2s : 0 < 2 ^ s) by (apply Z.pow_pos_nonneg; lia).
    assert (Hw31 : w < 2 ^ 31) by nia.
    pose proof (and_0x7f_range w) as Hm.
    assert (Hmod : JS.and w 0x7f = w mod 128)
      by (rewrite and_0x7f, ToInt32_small by lia; reflexivity).
    destruct (continuation_byte (JS.and w 0x7f) Hm) as (Hor & Hlow & Hhigh).
    rewrite Hor.
    cbn [Buffer_from map app readVarint_from length].
    fold (Buffer_from (writeVarint_loop fuel (JS.ushr w 7))).
    rewrite Z_of_byte_of_Z by lia.
    rewrite Hlow. apply Z.eqb_neq in Hhigh. rewrite Hhigh.
    rewrite ushr_7_small by lia.
    pose proof (Z.div_mod w 128 ltac:(lia)) as Hdm.
    pose proof (Z.mod_pos_bound w 128 ltac:(lia)) as Hmb.
    assert (Hq : 1 <= w / 128) by (apply Z.div_le_lower_bound; lia).
    assert (Hpow : 2 ^ (s + 7) = 2 ^ s * 128)
      by (rewrite Z.pow_add_r by lia; reflexivity).
    assert (Hs7 : s + 7 <= 30).
    { assert (Hlt2 : 2 ^ (s + 7) < 2 ^ 31) by nia.
      apply Z.pow_lt_mono_r_iff in Hlt2; lia. }
    rewrite Hmod in *.
    rewrite accumulate_step by nia.
    rewrite IH.
    + f_equal; [nia|lia].
    + lia.
    + apply Z.div_lt_upper_bound; [lia|].
      replace (Z.of_nat (S (S fuel))) with (Z.of_nat (S fuel) + 1) in Hw by lia.
      rewrite Z.pow_add_r in Hw by lia.
      change (128 ^ 1) with 128 in Hw. lia.
    + lia.
    + nia.
    + nia.
Qed.

(** The reader recovers every value below 2^31, wherever the varint sits
    in a buffer and whatever follows it. *)
Lemma readVarint_writeVarint (v : Z) (before rest : Buffer) :
  0 <= v < 2 ^ 31 ->
  readVarint (before ++ writeVarint v ++ rest) (length before) =
  mkVarint v (length (writeVarint v)).
Proof.
  intros Hv. rewrite readVarint_skipn.
  rewrite skipn_app, skipn_all, Nat.sub_diag. cbn [app skipn].
  unfold writeVarint.
  rewrite read_written_loop.
  - unfold Buffer_from. rewrite length_map. f_equal. lia.
  - lia.
  - change (128 ^ Z.of_nat 6) with (2 ^ 42). lia.
  - lia.
  - change (2 ^ 0) with 1. lia.
  - change (2 ^ 0) with 1. lia.
Qed.

(** ** What the reader consumes *)

Lemma readVarint_from_shape (rest : Buffer) :
  forall (v : Z) (k : nat) (s : Z),
    let r := readVarint_from rest v k s in
    exists n : nat,
      bytesRead r = (k + n)%nat /\
      (n <= length rest)%nat /\
      value r = accumulate (firstn n rest) v s /\
      forallb continues (firstn (n - 1) rest) = true /\
      ((exists b, (1 <= n)%nat /\ nth_error rest (n - 1) = Some b /\
                  continues b = false)
       \/ (n = length rest /\ forallb continues rest = true)).
Proof.
  induction rest as [|b rest IH]; intros v k s; cbn [readVarint_from].
  - exists 0%nat. cbn. repeat split; auto.
  - destruct (JS.and (Z_of_byte b) 128 =? 0) eqn:Hstop.
    + exists 1%nat. cbn [bytesRead value firstn accumulate Nat.sub forallb length].
      repeat split; [lia|lia|].
      left. exists b. repeat split; [lia|].
      unfold continues. rewrite Hstop. reflexivity.
    + destruct (IH (JS.or v (JS.shl (JS.and (Z_of_byte b) 127) s)) (S k) (s + 7))
        as (n & Hn & Hle & Hval & Hall & Hend).
      assert (Hb : continues b = true) by (unfold continues; rewrite Hstop; reflexivity).
      exists (S n). cbn [firstn accumulate length].
      split; [lia|]. split; [lia|]. split; [exact Hval|].
      split.
      * destruct n as [|m]; [reflexivity|].
        cbn [Nat.sub firstn forallb]. rewrite Hb.
        cbn [Nat.sub] in Hall. rewrite Nat.sub_0_r in Hall. exact Hall.
      * destruct Hend as [(b' & H1 & Hnth & Hb')|(Hlen & Hall')].
        -- left. exists b'. split; [lia|]. split; [|exact Hb'].
           destruct n as [|m]; [lia|].
           cbn [Nat.sub nth_error]. cbn [Nat.sub] in Hnth.
           rewrite Nat.sub_0_r in Hnth. exact Hnth.
        -- right. split; [lia|]. cbn [forallb]. rewrite Hb. exact Hall'.
Qed.

Lemma readVarint_bound (buffer : Buffer) (offset : nat) :
  (bytesRead (readVarint buffer offset) <= length buffer - offset)%nat.
Proof.
  rewrite readVarint_skipn.
  destruct (readVarint_from_shape (skipn offset buffer) 0 0%nat 0)
    as (n & Hn & Hle & _).
  rewrite length_skipn in Hle. lia.
Qed.

Lemma readVarint_at_end (buffer : Buffer) (offset : nat) :
  (length buffer <= offset)%nat -> readVarint buffer offset = mkVarint 0 0.
Proof.
  intros Hle. rewrite readVarint_skipn, skipn_all2 by exact Hle. reflexivity.
Qed.

(** C9.  [readVarint] returns a result for every buffer and offset and has
    no failure value.  With [rest] the bytes from [offset] on and [n] the
    reported [bytesRead]: [n] bytes of [rest] were read and no more exist
    than were read; the value is the bitwise-or accumulation of exactly
    those [n] bytes; all read bytes but the last carry the continuation bit;
    and the reader stopped either right after a byte whose high bit is 0, or
    because the buffer was exhausted, in which case the partial value and
    the count of the bytes actually read are what it returns. *)
Theorem readVarint_total_lenient :
  forall (buffer : Buffer) (offset : nat),
    let r := readVarint buffer offset in
    let rest := skipn offset buffer in
    let n := bytesRead r in
    (n <= length rest)%nat /\
    value r = accumulate (firstn n rest) 0 0 /\
    forallb continues (firstn (n - 1) rest) = true /\
    ((exists b, (1 <= n)%nat /\ nth_error rest (n - 1) = Some b /\
                continues b = false)
     \/ (n = length rest /\ forallb continues rest = true)).
Proof.
  intros buffer offset. cbv zeta. rewrite readVarint_skipn.
  destruct (readVarint_from_shape (skipn offset buffer) 0 0%nat 0)
    as (n & Hn & Hrest).
  cbv zeta in Hn. rewrite Hn. exact Hrest.
Qed.

(** ** Flag bits and masks *)

Lemma land_below_pow2 (k m : Z) : 0 <= k -> 0 <= m < 2 ^ k -> Z.land m (2 ^ k) = 0.
Proof.
  intros Hk Hm. apply Z.bits_inj'. intros n Hn.
  rewrite Z.land_spec, Z.bits_0, Z.pow2_bits_eqb by lia.
  destruct (Z.eqb_spec k n) as [->|Hne]; [|apply andb_false_r].
  replace m with (m mod 2 ^ n) by (apply Z.mod_small; lia).
  rewrite Z.mod_pow2_bits_high by lia. reflexivity.
Qed.

Lemma land_ones_small (k m : Z) : 0 <= k -> 0 <= m < 2 ^ k -> Z.land m (Z.ones k) = m.
Proof.
  intros Hk Hm. rewrite Z.land_ones by lia. apply Z.mod_small; lia.
Qed.

Lemma land_ones_flag (k m : Z) :
  0 <= k -> 0 <= m < 2 ^ k -> Z.land (m + 2 ^ k) (Z.ones k) = m.
Proof.
  intros Hk Hm. rewrite Z.land_ones by lia.
  replace (m + 2 ^ k) with (m + 1 * 2 ^ k) by lia.
  rewrite Z.mod_add by lia. apply Z.mod_small; lia.
Qed.

Lemma land_flag (k m : Z) :
  0 <= k -> 0 <= m < 2 ^ k -> Z.land (m + 2 ^ k) (2 ^ k) = 2 ^ k.
Proof.
  intros Hk Hm.
  rewrite <- (lor_add m (2 ^ k)) by (apply land_below_pow2; lia).
  rewrite Z.land_lor_distr_l, Z.land_diag, land_below_pow2 by lia.
  apply Z.lor_0_l.
Qed.

(** The Opus length field: 13 bits of length and the terminator flag. *)
Lemma opus_length_field (len : Z) (isTerminator : bool) :
  0 <= len <= 0x1fff ->
  let field := if isTerminator then JS.or (JS.and len 0x1fff) 0x2000
               else JS.and len 0x1fff in
  0 <= field < 2 ^ 14 /\
  JS.and field 0x1fff = len /\
  negb (JS.and field 0x2000 =? 0) = isTerminator.
Proof.
  intros Hlen.
  assert (Hmask : JS.and len 0x1fff = len).
  { unfold JS.and. rewrite !ToInt32_small by lia.
    apply (land_ones_small 13); lia. }
  cbv zeta. rewrite Hmask. destruct isTerminator.
  - assert (Hor : JS.or len 0x2000 = len + 2 ^ 13).
    { unfold JS.or. rewrite !ToInt32_small by lia.
      apply lor_add. apply (land_below_pow2 13); lia. }
    rewrite Hor. unfold JS.and. rewrite !ToInt32_small by lia.
    change 0x1fff with (Z.ones 13). change 0x2000 with (2 ^ 13).
    rewrite land_ones_flag, land_flag by lia.
    repeat split; lia.
  - rewrite Hmask. unfold JS.and. rewrite !ToInt32_small by lia.
    change 0x2000 with (2 ^ 13). rewrite land_below_pow2 by lia.
    repeat split; lia.
Qed.

(** ** The header byte *)

Lemma header_pack (c : AudioCodec) (t : Z) :
  0 <= t <= 31 ->
  let header := JS.or (JS.shl (JS.and (codec_tag c) 0x07) 5) (JS.and t 0x1f) in
  0 <= header < 256 /\
  header_codec header = codec_tag c /\
  header_target header = t.
Proof.
  intros Ht. cbv zeta.
  assert (Htag : 0 <= codec_tag c <= 4) by (destruct c; cbn; lia).
  assert (Hshl : JS.shl (JS.and (codec_tag c) 0x07) 5 = codec_tag c * 32)
    by (destruct c; reflexivity).
  assert (Hmask : JS.and t 0x1f = t).
  { unfold JS.and. rewrite !ToInt32_small by lia.
    apply (land_ones_small 5); lia. }
  assert (Hor : JS.or (codec_tag c * 32) t = codec_tag c * 32 + t).
  { unfold JS.or. rewrite !ToInt32_small by lia.
    rewrite Z.lor_comm, Z.add_comm.
    change (codec_tag c * 32) with (codec_tag c * 2 ^ 5).
    rewrite <- (lor_disjoint t (codec_tag c) 5) by lia.
    rewrite Z.shiftl_mul_pow2 by lia. reflexivity. }
  rewrite Hshl, Hmask, Hor.
  split; [lia|]. split.
  - unfold header_codec, JS.shr, JS.and, JS.ToUint32.
    change (5 mod 2 ^ 32 mod 32) with 5.
    rewrite (ToInt32_small (codec_tag c * 32 + t)) by lia.
    rewrite Z.shiftr_div_pow2 by lia.
    change (2 ^ 5) with 32.
    replace ((codec_tag c * 32 + t) / 32) with (codec_tag c)
      by (symmetry; rewrite Z.add_comm, Z.div_add by lia;
          rewrite Z.div_small by lia; lia).
    rewrite !ToInt32_small by lia.
    apply (land_ones_small 3); lia.
  - unfold header_target, JS.and. rewrite !ToInt32_small by lia.
    change 0x1f with (Z.ones 5). rewrite Z.land_ones by lia.
    change (2 ^ 5) with 32.
    rewrite Z.add_comm, Z.mod_add by lia. apply Z.mod_small; lia.
Qed.

(** ** Parsing a buffer laid out as header, session, sequence, tail *)

Lemma parseAudioPacket_layout (h : byte) (session seq : Z) (tail : Buffer) :
  0 <= session < 2 ^ 31 -> 0 <= seq < 2 ^ 31 ->
  parseAudioPacket (h :: writeVarint session ++ writeVarint seq ++ tail) =
  if header_codec (Z_of_byte h) =? codec_tag Opus then
    if Z.of_nat (length tail - bytesRead (readVarint tail 0))
       <? JS.and (value (readVarint tail 0)) 0x1fff
    then None
    else
      Some (mkPacket session (header_codec (Z_of_byte h))
              (header_target (Z_of_byte h)) seq
              (firstn (Z.to_nat (JS.and (value (readVarint tail 0)) 0x1fff))
                 (skipn (bytesRead (readVarint tail 0)) tail))
              (negb (JS.and (value (readVarint tail 0)) 0x2000 =? 0)))
  else
    Some (mkPacket session (header_codec (Z_of_byte h))
            (header_target (Z_of_byte h)) seq tail false).
Proof.
  intros Hsession Hseq.
  set (ws := writeVarint session). set (wq := writeVarint seq).
  set (data := h :: ws ++ wq ++ tail).
  assert (E1 : readVarint data 1 = mkVarint session (length ws))
    by exact (readVarint_writeVarint session [h] (wq ++ tail) Hsession).
  assert (E2 : readVarint data (1 + length ws) = mkVarint seq (length wq))
    by exact (readVarint_writeVarint seq (h :: ws) tail Hseq).
  assert (Hlen : length data = (1 + length ws + length wq + length tail)%nat)
    by (unfold data; cbn [length]; rewrite !length_app; lia).
  assert (E3 : skipn (1 + length ws + length wq) data = tail).
  { change data with ([h] ++ ws ++ wq ++ tail).
    rewrite !app_assoc, skipn_app, skipn_all2
      by (rewrite !length_app; cbn [length]; lia).
    rewrite !length_app. cbn [length app].
    replace (1 + length ws + length wq - (1 + length ws + length wq))%nat
      with 0%nat by lia.
    reflexivity. }
  assert (E4 : readVarint data (1 + length ws + length wq) = readVarint tail 0)
    by (rewrite !readVarint_skipn, E3; reflexivity).
  pose proof (readVarint_bound tail 0) as Hbr.
  unfold parseAudioPacket. cbv zeta.
  change (length data <? 1)%nat with false. cbv iota.
  change (Buffer_get data 0) with (Z_of_byte h).
  rewrite E1. cbn [bytesRead value]. rewrite E2. cbn [bytesRead value].
  destruct (header_codec (Z_of_byte h) =? codec_tag Opus); [|].
  - rewrite E4.
    destruct (Z.ltb_spec (Z.of_nat (length data))
                (Z.of_nat (1 + length ws + length wq
                           + bytesRead (readVarint tail 0))
                 + JS.and (value (readVarint tail 0)) 0x1fff)) as [Hshort|Hfits];
    destruct (Z.ltb_spec (Z.of_nat (length tail - bytesRead (readVarint tail 0)))
                (JS.and (value (readVarint tail 0)) 0x1fff)) as [Hshort'|Hfits'];
    try lia; [reflexivity|].
    unfold subarray.
    replace (1 + length ws + length wq + bytesRead (readVarint tail 0)
             + Z.to_nat (JS.and (value (readVarint tail 0)) 0x1fff)
             - (1 + length ws + length wq + bytesRead (readVarint tail 0)))%nat
      with (Z.to_nat (JS.and (value (readVarint tail 0)) 0x1fff)) by lia.
    replace (1 + length ws + length wq + bytesRead (readVarint tail 0))%nat
      with (bytesRead (readVarint tail 0) + (1 + length ws + length wq))%nat
      by lia.
    rewrite <- skipn_skipn, E3. reflexivity.
  - unfold subarray_from. rewrite E3. reflexivity.
Qed.

(** Every parsed packet takes its codec and target from the first byte and
    its source from the varint at offset 1. *)
Lemma parseAudioPacket_header (h : byte) (rest : Buffer) (p : FullAudioPacket) :
  parseAudioPacket (h :: rest) = Some p ->
  source p = value (readVarint ([h] ++ rest) 1) /\
  codec p = header_codec (Buffer_get (h :: rest) 0) /\
  target p = header_target (Buffer_get (h :: rest) 0).
Proof.
  unfold parseAudioPacket. cbv zeta. cbn [length Nat.ltb Nat.leb app].
  destruct (header_codec (Buffer_get (h :: rest) 0) =? codec_tag Opus).
  - match goal with
    | |- (if ?b then _ else _) = _ -> _ => destruct b; [discriminate|]
    end.
    intros Hp. injection Hp as <-. cbn [source codec target]. auto.
  - intros Hp. injection Hp as <-. cbn [source codec target]. auto.
Qed.

(** ** Packet round trip *)

(** C1, as stated, fails: [createAudioPacket] writes no session varint, so
    [parseAudioPacket] reads the sequence varint as the source and takes
    the following bytes for the sequence.  A two-byte CELT payload comes
    back with sequence 7 and a one-byte payload; the same payload sent as
    Opus is not parsed at all. *)
Lemma createAudioPacket_not_parsed_back :
  parseAudioPacket (createAudioPacket CELT_Alpha 0 5 [x07; x09] false)
    = Some (mkPacket 5 0 0 7 [x09] false) /\
  parseAudioPacket (createAudioPacket Opus 0 5 [x07; x09] false) = None /\
  ~ (exists src,
        parseAudioPacket (createAudioPacket CELT_Alpha 0 5 [x07; x09] false)
        = Some (mkPacket src (codec_tag CELT_Alpha) 0 5 [x07; x09] false)).
Proof.
  split; [vm_compute; reflexivity|].
  split; [vm_compute; reflexivity|].
  intros [src Hsrc]. vm_compute in Hsrc. discriminate Hsrc.
Qed.

(** C1, amended.  For a codec of the enumeration, a target in [0, 31], a
    sequence and a session below 2^31, an Opus payload of at most 0x1fff
    bytes and no terminator flag on a non-Opus packet: once the session
    varint is in its place after the header byte, [parseAudioPacket]
    returns exactly the session, codec, target, sequence, payload and
    terminator flag the packet was built from.  Parsing the bytes of
    [createAudioPacket] directly gives, whenever it gives a packet, the
    codec and target back and the sequence number in the source field. *)
Theorem relayed_packet_roundtrip
    (c : AudioCodec) (t seq session : Z) (payload : Buffer) (term : bool) :
  0 <= t <= 31 ->
  0 <= seq < 2 ^ 31 ->
  0 <= session < 2 ^ 31 ->
  (c = Opus -> Z.of_nat (length payload) <= 0x1fff) ->
  (c <> Opus -> term = false) ->
  parseAudioPacket (relayed session (createAudioPacket c t seq payload term))
    = Some (mkPacket session (codec_tag c) t seq payload term)
  /\
  (forall p,
      parseAudioPacket (createAudioPacket c t seq payload term) = Some p ->
      source p = seq /\ codec p = codec_tag c /\ target p = t).
Proof.
  intros Ht Hseq Hsession Hopus Hterm.
  destruct (header_pack c t Ht) as (Hh & Hc & Htg). cbv zeta in Hh, Hc, Htg.
  set (header := JS.or (JS.shl (JS.and (codec_tag c) 0x07) 5) (JS.and t 0x1f)) in *.
  assert (Hbyte : Z_of_byte (byte_of_Z header) = header)
    by (apply Z_of_byte_of_Z; exact Hh).
  split.
  - unfold createAudioPacket. cbv zeta. fold header.
    destruct (Z.eqb_spec (codec_tag c) (codec_tag Opus)) as [Heq|Hne].
    + assert (c = Opus) as -> by (destruct c; cbn in Heq; congruence || lia).
      specialize (Hopus eq_refl).
      destruct (opus_length_field (Z.of_nat (length payload)) term)
        as (Hfield & Hlen & Hflag); [lia|]. cbv zeta in Hfield, Hlen, Hflag.
      set (field := if term
                    then JS.or (JS.and (Z.of_nat (length payload)) 0x1fff) 0x2000
                    else JS.and (Z.of_nat (length payload)) 0x1fff) in *.
      cbn [Buffer_from map app relayed].
      rewrite parseAudioPacket_layout by assumption.
      rewrite Hbyte, Hc, Htg. change (codec_tag Opus =? codec_tag Opus) with true.
      cbv iota.
      assert (E : readVarint (writeVarint field ++ payload) 0
                  = mkVarint field (length (writeVarint field)))
        by (apply (readVarint_writeVarint field [] payload); lia).
      rewrite E. cbn [bytesRead value]. rewrite Hlen, Hflag.
      rewrite length_app.
      destruct (Z.ltb_spec
                  (Z.of_nat (length (writeVarint field) + length payload
                             - length (writeVarint field)))
                  (Z.of_nat (length payload))) as [Hlt|_]; [lia|].
      rewrite skipn_app, skipn_all, Nat.sub_diag, Nat2Z.id. cbn [skipn app].
      rewrite firstn_all. reflexivity.
    + assert (Hc' : c <> Opus) by (intros ->; apply Hne; reflexivity).
      rewrite (Hterm Hc').
      cbn [Buffer_from map app relayed].
      rewrite parseAudioPacket_layout by assumption.
      rewrite Hbyte, Hc, Htg.
      apply Z.eqb_neq in Hne. rewrite Hne. reflexivity.
  - intros p Hp.
    assert (Hdata : exists tail,
              createAudioPacket c t seq payload term
              = byte_of_Z header :: writeVarint seq ++ tail).
    { unfold createAudioPacket. cbv zeta. fold header.
      destruct (codec_tag c =? codec_tag Opus); eexists; reflexivity. }
    destruct Hdata as [tail Hdata].
    rewrite Hdata in Hp.
    apply parseAudioPacket_header in Hp. destruct Hp as (Hsrc & Hcodec & Htarget).
    rewrite Hsrc, Hcodec, Htarget.
    assert (E1 : readVarint ([byte_of_Z header] ++ writeVarint seq ++ tail) 1
                 = mkVarint seq (length (writeVarint seq)))
      by exact (readVarint_writeVarint seq [byte_of_Z header] tail Hseq).
    rewrite E1. unfold Buffer_get. cbn [nth value]. rewrite Hbyte. auto.
Qed.

Lemma relayed_packet_roundtrip_witness :
  parseAudioPacket (relayed 9 (createAudioPacket Opus 31 500 [x07; x09] true))
    = Some (mkPacket 9 (codec_tag Opus) 31 500 [x07; x09] true)
  /\
  (forall p,
      parseAudioPacket (createAudioPacket Opus 31 500 [x07; x09] true) = Some p ->
      source p = 500 /\ codec p = codec_tag Opus /\ target p = 31).
Proof.
  apply (relayed_packet_roundtrip Opus 31 500 9 [x07; x09] true).
  - lia.
  - lia.
  - lia.
  - intros _. simpl. lia.
  - intros H. exfalso. apply H. reflexivity.
Defined.

(** ** Varint round trip *)

(** C2 at 2^31, a value of the 32-bit unsigned range: the writer emits the
    five bytes 80 80 80 80 08, and the reader, whose [<<] and [|=] work on
    signed 32-bit integers, returns -2^31 instead of 2^31. *)
Theorem readVarint_writeVarint_bit31 :
  writeVarint 2147483648 = [x80; x80; x80; x80; x08] /\
  readVarint (writeVarint 2147483648) 0 = mkVarint (-2147483648) 5 /\
  readVarint (writeVarint 2147483648) 0
    <> mkVarint 2147483648 (length (writeVarint 2147483648)).
Proof.
  split; [vm_compute; reflexivity|].
  split; [vm_compute; reflexivity|].
  vm_compute. discriminate.
Qed.

(** ** When the parser gives up *)

(** C4.  [parseAudioPacket] returns null exactly when the input is empty,
    or the codec tag of the header is Opus and the 13-bit length declared
    by the length varint is larger than the number of bytes left after that
    varint.  On every other input, so on every non-empty input with a
    non-Opus tag, it returns a packet. *)
Theorem parseAudioPacket_null_iff :
  forall data : Buffer,
    parseAudioPacket data = None <->
    data = [] \/
    (header_codec (Buffer_get data 0) = codec_tag Opus /\
     let session := readVarint data 1 in
     let sequence := readVarint data (1 + bytesRead session) in
     let lengthField :=
       readVarint data (1 + bytesRead session + bytesRead sequence) in
     let consumed :=
       (1 + bytesRead session + bytesRead sequence + bytesRead lengthField)%nat in
     Z.of_nat (length data - consumed) < JS.and (value lengthField) 0x1fff).
Proof.
  intros data. cbv zeta. destruct data as [|h rest].
  - split; [intros _; left; reflexivity|reflexivity].
  - set (data := h :: rest).
    assert (Hlen : (1 <= length data)%nat) by (unfold data; cbn [length]; lia).
    pose proof (readVarint_bound data 1) as Hb1.
    pose proof (readVarint_bound data (1 + bytesRead (readVarint data 1))) as Hb2.
    pose proof (readVarint_bound data
                  (1 + bytesRead (readVarint data 1)
                   + bytesRead (readVarint data (1 + bytesRead (readVarint data 1)))))
      as Hb3.
    unfold parseAudioPacket. cbv zeta.
    replace (length data <? 1)%nat with false
      by (symmetry; apply Nat.ltb_ge; exact Hlen).
    destruct (Z.eqb_spec (header_codec (Buffer_get data 0)) (codec_tag Opus))
      as [Hopus|Hother].
    + match goal with
      | |- (if ?a <? ?b then _ else _) = None <-> _ =>
          destruct (Z.ltb_spec a b) as [Hshort|Hfits]
      end.
      * split; [intros _|reflexivity]. right. split; [exact Hopus|lia].
      * split; [discriminate|].
        intros [Hnil|[_ Hshort]]; [discriminate Hnil|lia].
    + split; [discriminate|].
      intros [Hnil|[Hopus _]]; [discriminate Hnil|contradiction].
Qed.

(** C10.  Past the end of the buffer [readVarint] reads nothing and returns
    value 0 with [bytesRead] 0; it never reports more bytes than lie between
    the offset and the end of the buffer (none when the offset is past the
    end); and a single byte whose codec tag
    is not Opus parses to a packet with source 0, sequence 0 and an empty
    payload. *)
Theorem readVarint_past_end :
  forall (buffer : Buffer) (offset : nat) (header : byte),
    (length buffer <= offset)%nat ->
    header_codec (Z_of_byte header) <> codec_tag Opus ->
    readVarint buffer offset = mkVarint 0 0 /\
    (forall (b : Buffer) (o : nat),
        (bytesRead (readVarint b o) <= length b - o)%nat) /\
    parseAudioPacket [header]
      = Some (mkPacket 0 (header_codec (Z_of_byte header))
                (header_target (Z_of_byte header)) 0 [] false).
Proof.
  intros buffer offset header Hpast Hcodec.
  split; [apply readVarint_at_end; exact Hpast|].
  split; [exact readVarint_bound|].
  unfold parseAudioPacket. cbv zeta.
  change (length [header] <? 1)%nat with false. cbv iota.
  change (Buffer_get [header] 0) with (Z_of_byte header).
  apply Z.eqb_neq in Hcodec. rewrite Hcodec.
  rewrite (readVarint_at_end [header] 1) by (cbn [length]; lia).
  cbn [bytesRead value].
  rewrite (readVarint_at_end [header] (1 + 0)) by (cbn [length]; lia).
  reflexivity.
Qed.

Lemma readVarint_past_end_witness :
  readVarint [x80; x01] 2 = mkVarint 0 0 /\
  (forall (b : Buffer) (o : nat),
      (bytesRead (readVarint b o) <= length b - o)%nat) /\
  parseAudioPacket [x25]
    = Some (mkPacket 0 (header_codec (Z_of_byte x25))
              (header_target (Z_of_byte x25)) 0 [] false).
Proof.
  apply (readVarint_past_end [x80; x01] 2 x25).
  - simpl. lia.
  - vm_compute. discriminate.
Defined.

(** ** The tunnel prefix *)

Lemma Z_of_byte_of_Z_mod (z : Z) : Z_of_byte (byte_of_Z z) = z mod 256.
Proof.
  assert (Hland : forall x, Z.land x 255 = x mod 256)
    by (intros x; change 255 with (Z.ones 8); rewrite Z.land_ones by lia;
        reflexivity).
  pose proof (Z.mod_pos_bound z 256 ltac:(lia)) as Hm.
  rewrite <- (Z_of_byte_of_Z (z mod 256)) by lia.
  unfold byte_of_Z. rewrite !Hland, Z.mod_mod by lia. reflexivity.
Qed.

Lemma big_endian_uint32 (L : Z) :
  0 <= L <= 0xffffffff ->
  big_endian (Buffer_from [Z.shiftr L 24; Z.shiftr L 16; Z.shiftr L 8; L]) = L.
Proof.
  intros HL. unfold big_endian. cbn [Buffer_from map fold_left].
  rewrite !Z_of_byte_of_Z_mod, !Z.shiftr_div_pow2 by lia.
  change (2 ^ 24) with (256 * 256 * 256).
  change (2 ^ 16) with (256 * 256).
  change (2 ^ 8) with 256.
  rewrite <- !Z.div_div by lia.
  pose proof (Z.div_mod L 256 ltac:(lia)).
  pose proof (Z.div_mod (L / 256) 256 ltac:(lia)).
  pose proof (Z.div_mod (L / 256 / 256) 256 ltac:(lia)).
  assert (Htop : L / 256 / 256 / 256 < 256).
  { repeat (apply Z.div_lt_upper_bound; [lia|]). lia. }
  assert (0 <= L / 256 / 256 / 256) by (repeat apply Z.div_pos; lia).
  rewrite (Z.mod_small (L / 256 / 256 / 256) 256) by lia.
  lia.
Qed.

Section StreamFacts.
Import MumbleAudioStream Wiring.

(** *** What [sendAudio] does, in one equation *)

Lemma sendAudio_spec (s : Stream) (audioData : Buffer) (c : AudioCodec)
    (t : Z) (term : bool) :
  let packet := createAudioPacket c t (sequence s) audioData term in
  let counted :=
    mkStream (socket s) (audioSubject_isStopped s) (sequence s + 1)
      (originalDecodeAudio s) (events s) in
  sendAudio s audioData c t term =
  if Z.of_nat (length packet) <=? 0xffffffff then
    (write (socket s) (tunnel_frame packet),
     emit (EvWrite (tunnel_frame packet)) counted)
  else (Rejected RangeError, counted).
Proof.
  cbv zeta. unfold sendAudio, tunnel_frame.
  set (packet := createAudioPacket c t (sequence s) audioData term).
  change (writeUInt16BE (Buffer_alloc 6) 1 0)
    with (Some [x00; x01; x00; x00; x00; x00]).
  cbv iota beta. unfold writeUInt32BE.
  replace (0 <=? Z.of_nat (length packet)) with true
    by (symmetry; apply Z.leb_le; lia).
  cbn [andb length Nat.add Nat.leb].
  rewrite andb_true_r.
  destruct (Z.of_nat (length packet) <=? 0xffffffff); reflexivity.
Qed.

Lemma sendAudio_same_wiring (s : Stream) (audioData : Buffer)
    (c : AudioCodec) (t : Z) (term : bool) :
  same_wiring s (snd (sendAudio s audioData c t term)) /\
  sequence (snd (sendAudio s audioData c t term)) = sequence s + 1.
Proof.
  rewrite sendAudio_spec. cbv zeta.
  destruct (_ <=? _); cbn; unfold same_wiring; auto.
Qed.

(** *** Calling function objects *)

Lemma invoke_same_wiring (fuel : nat) :
  forall (s : Stream) (f : addr) (this : ThisArg) (data : Buffer),
    same_wiring s (invoke fuel s f this data) /\
    sequence (invoke fuel s f this data) = sequence s.
Proof.
  induction fuel as [|fuel IH]; intros s f this data; cbn [invoke].
  - unfold same_wiring; auto.
  - destruct (nth_error (functions (socket s)) f) as [[|target|]|].
    + unfold same_wiring; cbn; auto.
    + apply IH.
    + set (s1 := match parseAudioPacket data with
                 | Some packet => audioSubject_next packet s
                 | None => s
                 end).
      assert (H1 : same_wiring s s1 /\ sequence s1 = sequence s).
      { unfold s1, audioSubject_next, same_wiring.
        destruct (parseAudioPacket data); [|auto].
        destruct (audioSubject_isStopped s) eqn:Hstopped; cbn; auto. }
      destruct H1 as ((Hs1 & Hst1 & Ho1) & Hq1).
      destruct (originalDecodeAudio s1) as [original|] eqn:Horig.
      * destruct (IH s1 original ThisStream data) as ((Hs2 & Hst2 & Ho2) & Hq2).
        unfold same_wiring. repeat split; congruence.
      * unfold same_wiring. repeat split; congruence.
    + unfold same_wiring; auto.
Qed.

Lemma inbound_same_wiring (s : Stream) (data : Buffer) :
  same_wiring s (inbound s data) /\
  sequence (inbound s data) = sequence s.
Proof.
  unfold inbound. destruct (decodeAudio (socket s)).
  - apply invoke_same_wiring.
  - unfold same_wiring; auto.
Qed.

Lemma destroy_sequence (s : Stream) : sequence (destroy s) = sequence s.
Proof.
  unfold destroy, audioSubject_complete, set_decodeAudio.
  destruct (audioSubject_isStopped s); cbn;
    destruct (originalDecodeAudio s); reflexivity.
Qed.

End StreamFacts.

(** ** Streams built on a socket with a host handler *)

Section Attached.
Import MumbleAudioStream Wiring.

Variable sock0 : Socket.
Variable a0 : addr.
Hypothesis handler_present : decodeAudio sock0 = VFunction a0.

Lemma constructor_attached : attached sock0 a0 (constructor sock0).
Proof.
  unfold constructor, hookAudioDecoding. cbn [socket].
  rewrite handler_present. unfold attached, wired. cbn. auto.
Qed.

Lemma attached_same_wiring (s s' : Stream) :
  same_wiring s s' -> attached sock0 a0 s -> attached sock0 a0 s'.
Proof.
  intros (Hs & Hst & Ho) ((Hf & Hw & Horig) & Hd & Hlive).
  unfold attached, wired. rewrite Hs, Hst, Ho. auto.
Qed.

Lemma destroyed_same_wiring (s s' : Stream) :
  same_wiring s s' -> destroyed sock0 a0 s -> destroyed sock0 a0 s'.
Proof.
  intros (Hs & Hst & Ho) ((Hf & Hw & Horig) & Hd & Hstop).
  unfold destroyed, wired. rewrite Hs, Hst, Ho. auto.
Qed.

Lemma destroy_attached (s : Stream) :
  attached sock0 a0 s ->
  destroyed sock0 a0 (destroy s) /\ events (destroy s) = events s ++ [EvComplete].
Proof.
  intros ((Hf & Hw & Horig) & Hd & Hlive).
  unfold destroy, audioSubject_complete. rewrite Hlive.
  cbn [originalDecodeAudio emit]. rewrite Horig.
  unfold destroyed, wired, set_decodeAudio. cbn. auto.
Qed.

Lemma destroy_destroyed (s : Stream) :
  destroyed sock0 a0 s -> destroy s = s.
Proof.
  intros ((Hf & Hw & Horig) & Hd & Hstop).
  unfold destroy, audioSubject_complete. rewrite Hstop, Horig.
  unfold set_decodeAudio. rewrite <- Hd.
  destruct s as [[F d w] stopped q o ev]. reflexivity.
Qed.

Lemma step_wired (s : Stream) (op : Op) :
  attached sock0 a0 s \/ destroyed sock0 a0 s ->
  attached sock0 a0 (step s op) \/ destroyed sock0 a0 (step s op).
Proof.
  intros H. destruct op as [audioData c t term|data|]; cbn [step].
  - destruct (sendAudio_same_wiring s audioData c t term) as [Hw _].
    destruct H; [left; eapply attached_same_wiring|
                 right; eapply destroyed_same_wiring]; eauto.
  - destruct (inbound_same_wiring s data) as [Hw _].
    destruct H; [left; eapply attached_same_wiring|
                 right; eapply destroyed_same_wiring]; eauto.
  - right. destruct H as [H|H].
    + apply destroy_attached; exact H.
    + rewrite destroy_destroyed; exact H.
Qed.

Lemma run_wired (ops : list Op) :
  forall s : Stream,
    attached sock0 a0 s \/ destroyed sock0 a0 s ->
    attached sock0 a0 (run ops s) \/ destroyed sock0 a0 (run ops s).
Proof.
  induction ops as [|op ops IH]; intros s H; cbn [run fold_left].
  - exact H.
  - apply IH. apply step_wired. exact H.
Qed.

Lemma run_attached (ops : list Op) :
  forall s : Stream,
    forallb (fun op => negb (is_destroy op)) ops = true ->
    attached sock0 a0 s -> attached sock0 a0 (run ops s).
Proof.
  induction ops as [|op ops IH]; intros s Hops H; cbn [run fold_left].
  - exact H.
  - cbn [forallb] in Hops. apply andb_prop in Hops. destruct Hops as [Hop Hops].
    apply IH; [exact Hops|].
    destruct op as [audioData c t term|data|]; cbn [step].
    + eapply attached_same_wiring; [|exact H].
      apply sendAudio_same_wiring.
    + eapply attached_same_wiring; [|exact H].
      apply inbound_same_wiring.
    + discriminate Hop.
Qed.

Lemma destroy_run_destroyed (ops : list Op) :
  destroyed sock0 a0 (destroy (run ops (constructor sock0))).
Proof.
  destruct (run_wired ops (constructor sock0)) as [H|H].
  - left. exact constructor_attached.
  - apply destroy_attached. exact H.
  - rewrite destroy_destroyed; exact H.
Qed.

(** From here on the handler found by the constructor is a function of
    the host client. *)
Hypothesis handler_host : nth_error (functions sock0) a0 = Some HostFn.

Lemma lookup_original (s : Stream) :
  wired sock0 a0 s -> nth_error (functions (socket s)) a0 = Some HostFn.
Proof.
  intros (Hf & _ & _). rewrite Hf, nth_error_app1; [exact handler_host|].
  apply nth_error_Some. rewrite handler_host. discriminate.
Qed.

Lemma lookup_bound (s : Stream) :
  wired sock0 a0 s ->
  nth_error (functions (socket s)) (bound_addr sock0) = Some (BoundFn a0).
Proof.
  intros (Hf & _ & _). unfold bound_addr.
  rewrite Hf, nth_error_app2, Nat.sub_diag by lia. reflexivity.
Qed.

Lemma lookup_hook (s : Stream) :
  wired sock0 a0 s ->
  nth_error (functions (socket s)) (hook_addr sock0) = Some HookFn.
Proof.
  intros (Hf & _ & _). unfold hook_addr.
  rewrite Hf, nth_error_app2 by lia.
  replace (S (length (functions sock0)) - length (functions sock0))%nat
    with 1%nat by lia.
  reflexivity.
Qed.

Lemma fuel_enough (s : Stream) :
  wired sock0 a0 s ->
  exists fuel, S (length (functions (socket s))) = S (S (S fuel)).
Proof.
  intros (Hf & _ & _). rewrite Hf, length_app. cbn [length].
  exists (length (functions sock0)). lia.
Qed.

Lemma invoke_bound (fuel : nat) (s : Stream) (this : ThisArg) (data : Buffer) :
  wired sock0 a0 s ->
  invoke (S (S fuel)) s (bound_addr sock0) this data
  = emit (EvHostCall a0 ThisSocket data) s.
Proof.
  intros Hw. cbn [invoke].
  rewrite (lookup_bound s Hw), (lookup_original s Hw). reflexivity.
Qed.

Lemma inbound_attached (s : Stream) (data : Buffer) :
  attached sock0 a0 s ->
  inbound s data
  = emit (EvHostCall a0 ThisSocket data)
      (match parseAudioPacket data with
       | Some packet => emit (EvNext packet) s
       | None => s
       end).
Proof.
  intros (Hw & Hd & Hlive).
  unfold inbound. rewrite Hd.
  destruct (fuel_enough s Hw) as [fuel ->].
  cbn [invoke]. rewrite (lookup_hook s Hw).
  unfold audioSubject_next. rewrite Hlive.
  set (s1 := match parseAudioPacket data with
             | Some packet => emit (EvNext packet) s
             | None => s
             end).
  assert (Hw1 : wired sock0 a0 s1)
    by (unfold s1; destruct (parseAudioPacket data); exact Hw).
  destruct Hw1 as (Hf1 & Hwr1 & Ho1). rewrite Ho1.
  apply invoke_bound. unfold wired. auto.
Qed.

Lemma inbound_destroyed (s : Stream) (data : Buffer) :
  destroyed sock0 a0 s ->
  inbound s data = emit (EvHostCall a0 ThisSocket data) s.
Proof.
  intros (Hw & Hd & Hstop).
  unfold inbound. rewrite Hd.
  destruct (fuel_enough s Hw) as [fuel ->].
  apply (invoke_bound (S fuel)). exact Hw.
Qed.

End Attached.

(** ** The claims about the stream adapter *)

Section StreamClaims.
Import MumbleAudioStream Wiring.

Lemma constructor_sequence (sock : Socket) : sequence (constructor sock) = 0.
Proof.
  unfold constructor, hookAudioDecoding. cbn [socket].
  destruct (decodeAudio sock); reflexivity.
Qed.

Lemma run_sequence (ops : list Op) :
  forall s : Stream,
    sequence (run ops s) = sequence s + Z.of_nat (length (filter is_send ops)).
Proof.
  induction ops as [|op ops IH]; intros s; cbn [run fold_left filter].
  - cbn [length]. lia.
  - fold (run ops (step s op)). rewrite IH.
    destruct op as [audioData c t term|data|]; cbn [step is_send length].
    + destruct (sendAudio_same_wiring s audioData c t term) as [_ ->]. lia.
    + destruct (inbound_same_wiring s data) as [_ ->]. lia.
    + rewrite destroy_sequence. lia.
Qed.

(** C3, as stated, fails: an Opus payload of 8192 bytes is sent without
    any error.  The promise resolves, and the frame on the wire holds the
    whole payload behind a length field of 0. *)
Lemma sendAudio_oversized_resolves :
  let s0 := constructor (mkSocket [HostFn] (VFunction 0%nat) (fun _ => Resolved)) in
  let r := sendAudio s0 (repeat x00 (Z.to_nat 0x2000)) Opus 0 false in
  fst r = Resolved /\
  events (snd r)
  = [EvWrite ([x00; x01; x00; x00; x20; x03] ++ [x80; x00; x00]
              ++ repeat x00 (Z.to_nat 0x2000))].
Proof.
  vm_compute. split; reflexivity.
Qed.

(** C3, amended.  A send with codec Opus and a payload longer than 0x1fff
    bytes (the packet still fitting the 32-bit length of the tunnel
    prefix) raises no error of its own: its outcome is the outcome of the
    transport's write.  The frame written holds every byte of the
    payload, not truncated, after a length field that carries only
    [length & 0x1fff], a number smaller than the payload length, with
    0x2000 or-ed in for a terminator. *)
Theorem sendAudio_oversized
    (s : Stream) (audioData : Buffer) (t : Z) (term : bool) :
  0x1fff < Z.of_nat (length audioData) ->
  Z.of_nat (length (createAudioPacket Opus t (sequence s) audioData term))
    <= 0xffffffff ->
  let packet := createAudioPacket Opus t (sequence s) audioData term in
  let declared := JS.and (Z.of_nat (length audioData)) 0x1fff in
  fst (sendAudio s audioData Opus t term)
    = write (socket s) (tunnel_frame packet) /\
  events (snd (sendAudio s audioData Opus t term))
    = events s ++ [EvWrite (tunnel_frame packet)] /\
  packet
    = Buffer_from [JS.or (JS.shl (JS.and (codec_tag Opus) 0x07) 5) (JS.and t 0x1f)]
      ++ writeVarint (sequence s)
      ++ writeVarint (if term then JS.or declared 0x2000 else declared)
      ++ audioData /\
  0 <= declared <= 0x1fff /\
  declared < Z.of_nat (length audioData).
Proof.
  intros Hbig Hfits. cbv zeta.
  rewrite sendAudio_spec. cbv zeta.
  apply Z.leb_le in Hfits. rewrite Hfits. cbn [fst snd emit events].
  split; [reflexivity|]. split; [reflexivity|]. split; [reflexivity|].
  assert (Hd : 0 <= JS.and (Z.of_nat (length audioData)) 0x1fff <= 0x1fff).
  { unfold JS.and. rewrite (ToInt32_small 0x1fff) by lia.
    change 0x1fff with (Z.ones 13) at 1 2. rewrite Z.land_ones by lia.
    pose proof (Z.mod_pos_bound (JS.ToInt32 (Z.of_nat (length audioData)))
                  (2 ^ 13) ltac:(lia)).
    lia. }
  split; [exact Hd|lia].
Qed.

Lemma sendAudio_oversized_witness :
  let s := constructor (mkSocket [HostFn] (VFunction 0%nat) (fun _ => Resolved)) in
  let audioData := repeat x01 (Z.to_nat 0x2008) in
  let packet := createAudioPacket Opus 0 (sequence s) audioData true in
  let declared := JS.and (Z.of_nat (length audioData)) 0x1fff in
  fst (sendAudio s audioData Opus 0 true)
    = write (socket s) (tunnel_frame packet) /\
  events (snd (sendAudio s audioData Opus 0 true))
    = events s ++ [EvWrite (tunnel_frame packet)] /\
  packet
    = Buffer_from [JS.or (JS.shl (JS.and (codec_tag Opus) 0x07) 5) (JS.and 0 0x1f)]
      ++ writeVarint (sequence s)
      ++ writeVarint (if true then JS.or declared 0x2000 else declared)
      ++ audioData /\
  0 <= declared <= 0x1fff /\
  declared < Z.of_nat (length audioData).
Proof.
  apply (sendAudio_oversized
           (constructor (mkSocket [HostFn] (VFunction 0%nat) (fun _ => Resolved)))
           (repeat x01 (Z.to_nat 0x2008)) 0 true).
  - vm_compute. reflexivity.
  - vm_compute. discriminate.
Defined.

(** C5.  On a stream that has been constructed on a socket with a host
    handler and not destroyed, whatever was sent or received before:
    handing a raw frame to the socket's [decodeAudio] calls the original
    handler exactly once, with the socket as [this] and the identical
    bytes, whether or not the frame parses; the subscribers get the
    parsed packet first when there is one and nothing when
    [parseAudioPacket] returns null. *)
Theorem inbound_dual_delivery
    (sock0 : Socket) (a0 : addr) (ops : list Op) (data : Buffer) :
  decodeAudio sock0 = VFunction a0 ->
  nth_error (functions sock0) a0 = Some HostFn ->
  forallb (fun op => negb (is_destroy op)) ops = true ->
  let s := run ops (constructor sock0) in
  events (inbound s data)
  = events s
    ++ match parseAudioPacket data with
       | Some packet => [EvNext packet]
       | None => []
       end
    ++ [EvHostCall a0 ThisSocket data].
Proof.
  intros Hhandler Hhost Hops s.
  assert (Hatt : attached sock0 a0 s)
    by (apply run_attached; [exact Hops|apply constructor_attached; exact Hhandler]).
  rewrite (inbound_attached sock0 a0 Hhost s data Hatt).
  destruct (parseAudioPacket data); cbn [emit events].
  - rewrite <- app_assoc. reflexivity.
  - reflexivity.
Qed.

Lemma inbound_dual_delivery_witness :
  let sock0 := mkSocket [HostFn] (VFunction 0%nat) (fun _ => Resolved) in
  let ops := [Send [x0a; x0b] Opus 0 false; Inbound [x20]] in
  let data := [x80; x01; x02; x05] in
  let s := run ops (constructor sock0) in
  events (inbound s data)
  = events s
    ++ match parseAudioPacket data with
       | Some packet => [EvNext packet]
       | None => []
       end
    ++ [EvHostCall 0%nat ThisSocket data].
Proof.
  apply (inbound_dual_delivery
           (mkSocket [HostFn] (VFunction 0%nat) (fun _ => Resolved)) 0%nat
           [Send [x0a; x0b] Opus 0 false; Inbound [x20]]
           [x80; x01; x02; x05]).
  - reflexivity.
  - reflexivity.
  - reflexivity.
Defined.

(** C6.  A send whose promise resolves has written exactly one buffer to
    the transport: six prefix bytes, the first two reading 1 and the next
    four reading the byte length of the audio packet as big-endian
    numbers, followed directly by the packet [createAudioPacket] built
    with the stream's sequence number. *)
Theorem sendAudio_envelope
    (s s' : Stream) (audioData : Buffer) (c : AudioCodec) (t : Z) (term : bool) :
  sendAudio s audioData c t term = (Resolved, s') ->
  let packet := createAudioPacket c t (sequence s) audioData term in
  exists prefix : Buffer,
    events s' = events s ++ [EvWrite (prefix ++ packet)] /\
    length prefix = 6%nat /\
    big_endian (firstn 2 prefix) = 1 /\
    big_endian (skipn 2 prefix) = Z.of_nat (length packet).
Proof.
  intros Hsend. cbv zeta.
  rewrite sendAudio_spec in Hsend. cbv zeta in Hsend.
  set (packet := createAudioPacket c t (sequence s) audioData term) in *.
  destruct (Z.leb_spec (Z.of_nat (length packet)) 0xffffffff) as [Hfits|Hbig];
    [|discriminate Hsend].
  injection Hsend as _ <-.
  set (L := Z.of_nat (length packet)) in *.
  exists ([x00; x01] ++ Buffer_from [Z.shiftr L 24; Z.shiftr L 16; Z.shiftr L 8; L]).
  split; [|split; [|split]].
  - cbn [emit events]. unfold tunnel_frame. fold L.
    rewrite <- app_assoc. reflexivity.
  - reflexivity.
  - reflexivity.
  - cbn [app skipn]. apply big_endian_uint32. lia.
Qed.

Lemma sendAudio_envelope_witness :
  let s := constructor (mkSocket [HostFn] (VFunction 0%nat) (fun _ => Resolved)) in
  let packet := createAudioPacket Opus 0 (sequence s) [x0a; x0b] false in
  exists prefix : Buffer,
    events (snd (sendAudio s [x0a; x0b] Opus 0 false))
      = events s ++ [EvWrite (prefix ++ packet)] /\
    length prefix = 6%nat /\
    big_endian (firstn 2 prefix) = 1 /\
    big_endian (skipn 2 prefix) = Z.of_nat (length packet).
Proof.
  apply (sendAudio_envelope
           (constructor (mkSocket [HostFn] (VFunction 0%nat) (fun _ => Resolved)))
           (snd (sendAudio
                   (constructor (mkSocket [HostFn] (VFunction 0%nat)
                                   (fun _ => Resolved)))
                   [x0a; x0b] Opus 0 false))
           [x0a; x0b] Opus 0 false).
  vm_compute. reflexivity.
Defined.

(** C7.  A fresh stream has sequence counter 0.  After any operations on
    it (sends, inbound frames, even [destroy]) the counter equals the
    number of sends so far, so it was stepped once per send and never
    reset; the next send builds its packet with exactly that number, and
    leaves the counter one higher, also when the write is refused.  Only
    a newly constructed stream starts again at 0. *)
Theorem sequence_counts_sends :
  forall (sock0 : Socket) (ops : list Op),
    let s := run ops (constructor sock0) in
    let n := Z.of_nat (length (filter is_send ops)) in
    sequence (constructor sock0) = 0 /\
    sequence s = n /\
    (forall (audioData : Buffer) (c : AudioCodec) (t : Z) (term : bool),
        let packet := createAudioPacket c t n audioData term in
        events (snd (sendAudio s audioData c t term))
        = events s
          ++ (if Z.of_nat (length packet) <=? 0xffffffff
              then [EvWrite (tunnel_frame packet)] else []) /\
        sequence (snd (sendAudio s audioData c t term)) = n + 1) /\
    sequence (constructor (socket s)) = 0.
Proof.
  intros sock0 ops s n.
  assert (Hn : sequence s = n).
  { unfold s, n. rewrite run_sequence, constructor_sequence. lia. }
  split; [apply constructor_sequence|].
  split; [exact Hn|].
  split; [|apply constructor_sequence].
  intros audioData c t term. cbv zeta.
  rewrite sendAudio_spec. cbv zeta. rewrite Hn.
  destruct (_ <=? _); cbn [snd emit events sequence].
  - split; reflexivity.
  - rewrite app_nil_r. split; reflexivity.
Qed.

(** C8 on a socket whose handler is the function at address 0.  [destroy]
    is meant to put the original method back, but the constructor saved
    only [decodeAudio.bind(socket)], a new function object, and that is
    what [destroy] installs: the handler after [destroy] is the function
    at address 1, not the one at address 0 that was there before the
    stream was constructed. *)
Lemma destroy_not_reference_identical :
  let sock0 := mkSocket [HostFn] (VFunction 0%nat) (fun _ => Resolved) in
  decodeAudio (socket (destroy (constructor sock0))) = VFunction 1%nat /\
  decodeAudio (socket (destroy (constructor sock0))) <> decodeAudio sock0.
Proof.
  cbv zeta. split; [reflexivity|]. cbn. discriminate.
Qed.

(** The same miss on every socket with a host handler, whatever happened
    between construction and [destroy]: the handler left behind is the
    bound copy and never the original function object, although calling
    it still reaches the original handler once with the socket as [this]
    and the same bytes.  The other half of the restore holds: a second
    [destroy] changes nothing at all. *)
Lemma destroy_restores_bound_copy
    (sock0 : Socket) (a0 : addr) (ops : list Op) :
  decodeAudio sock0 = VFunction a0 ->
  nth_error (functions sock0) a0 = Some HostFn ->
  let s := destroy (run ops (constructor sock0)) in
  decodeAudio (socket s) = VFunction (bound_addr sock0) /\
  nth_error (functions (socket s)) (bound_addr sock0) = Some (BoundFn a0) /\
  bound_addr sock0 <> a0 /\
  (forall data : Buffer,
      events (inbound s data) = events s ++ [EvHostCall a0 ThisSocket data]) /\
  destroy s = s.
Proof.
  intros Hhandler Hhost s.
  assert (Hd : destroyed sock0 a0 s)
    by (apply destroy_run_destroyed; exact Hhandler).
  pose proof Hd as (Hw & Hdec & Hstop).
  split; [exact Hdec|].
  split; [apply (lookup_bound sock0 a0); exact Hw|].
  split.
  - unfold bound_addr. intros Heq.
    assert (Hlt : (a0 < length (functions sock0))%nat)
      by (apply nth_error_Some; rewrite Hhost; discriminate).
    lia.
  - split.
    + intros data. rewrite (inbound_destroyed sock0 a0 Hhost s data Hd).
      reflexivity.
    + apply (destroy_destroyed sock0 a0). exact Hd.
Qed.

End StreamClaims.

(** * Further properties of the codec and the adapter *)

(** ** 32-bit arithmetic, unsigned view *)

Lemma ToInt32_mod (z : Z) : JS.ToInt32 z mod 2 ^ 32 = z mod 2 ^ 32.
Proof.
  unfold JS.ToInt32. rewrite Zminus_mod_idemp_l.
  f_equal. lia.
Qed.

Lemma ToInt32_of_mod (z : Z) : JS.ToInt32 (z mod 2 ^ 32) = JS.ToInt32 z.
Proof.
  unfold JS.ToInt32. rewrite Zplus_mod_idemp_l. reflexivity.
Qed.

Lemma ToInt32_idem (z : Z) : JS.ToInt32 (JS.ToInt32 z) = JS.ToInt32 z.
Proof.
  apply ToInt32_small. apply ToInt32_range.
Qed.

(** A signed 32-bit number is known from its residue modulo 2^32. *)
Lemma int32_of_residue (r u : Z) :
  - 2 ^ 31 <= r < 2 ^ 31 -> r mod 2 ^ 32 = u mod 2 ^ 32 -> r = JS.ToInt32 u.
Proof.
  intros Hr Hu.
  rewrite <- (ToInt32_small r Hr), <- (ToInt32_of_mod r), Hu.
  apply ToInt32_of_mod.
Qed.

Lemma ToInt32_mod_128 (z : Z) : JS.ToInt32 z mod 128 = z mod 128.
Proof.
  pose proof (ToInt32_mod z) as H.
  change (2 ^ 32) with (128 * 2 ^ 25) in H.
  rewrite <- (Z.mod_mod_divide (JS.ToInt32 z) (128 * 2 ^ 25) 128)
    by (exists (2 ^ 25); lia).
  rewrite H.
  apply Z.mod_mod_divide. exists (2 ^ 25). lia.
Qed.

Lemma int32_shiftr (x : Z) :
  - 2 ^ 31 <= x < 2 ^ 31 <-> Z.shiftr x 31 = 0 \/ Z.shiftr x 31 = -1.
Proof.
  rewrite Z.shiftr_div_pow2 by lia.
  split; intros H; Z.div_mod_to_equations; lia.
Qed.

Lemma lor_int32 (a b : Z) :
  - 2 ^ 31 <= a < 2 ^ 31 -> - 2 ^ 31 <= b < 2 ^ 31 ->
  - 2 ^ 31 <= Z.lor a b < 2 ^ 31.
Proof.
  intros Ha Hb. apply int32_shiftr. rewrite Z.shiftr_lor.
  apply int32_shiftr in Ha. apply int32_shiftr in Hb.
  destruct Ha as [-> | ->], Hb as [-> | ->]; cbn; auto.
Qed.

Lemma or_range (a b : Z) : - 2 ^ 31 <= JS.or a b < 2 ^ 31.
Proof.
  unfold JS.or. apply lor_int32; apply ToInt32_range.
Qed.

Lemma lor_mod (a b : Z) :
  Z.lor a b mod 2 ^ 32 = Z.lor (a mod 2 ^ 32) (b mod 2 ^ 32).
Proof.
  rewrite <- !Z.land_ones by lia. apply Z.land_lor_distr_l.
Qed.

(** One accumulation step of the reader, seen modulo 2^32. *)
Lemma accumulate_step_unsigned (acc m s : Z) :
  0 <= s <= 31 -> 0 <= m -> m * 2 ^ s < 2 ^ 32 -> acc mod 2 ^ 32 < 2 ^ s ->
  JS.or acc (JS.shl m s) mod 2 ^ 32 = acc mod 2 ^ 32 + m * 2 ^ s.
Proof.
  intros Hs Hm Hlt Hacc.
  assert (H2s : 0 < 2 ^ s) by (apply Z.pow_pos_nonneg; lia).
  pose proof (Z.mod_pos_bound acc (2 ^ 32) ltac:(lia)) as Ha.
  unfold JS.or, JS.shl, JS.ToUint32.
  rewrite (Z.mod_small s (2 ^ 32)) by lia.
  rewrite (Z.mod_small s 32) by lia.
  rewrite ToInt32_idem, lor_mod, !ToInt32_mod.
  rewrite Z.shiftl_mul_pow2 by lia.
  assert (Hm32 : JS.ToInt32 m * 2 ^ s mod 2 ^ 32 = m * 2 ^ s).
  { rewrite <- Z.mul_mod_idemp_l, ToInt32_mod, Z.mul_mod_idemp_l by lia.
    apply Z.mod_small. nia. }
  rewrite Hm32.
  rewrite <- (lor_disjoint (acc mod 2 ^ 32) m s) by lia.
  rewrite Z.shiftl_mul_pow2 by lia. reflexivity.
Qed.

(** ** What the reader makes of any written varint *)

Lemma read_written_unsigned (fuel : nat) :
  forall (w acc : Z) (k : nat) (s : Z) (rest : Buffer),
    0 <= w -> w < 128 ^ Z.of_nat (S fuel) ->
    0 <= s <= 31 -> w * 2 ^ s < 2 ^ 32 ->
    acc mod 2 ^ 32 < 2 ^ s ->
    readVarint_from (Buffer_from (writeVarint_loop fuel w) ++ rest) acc k s =
    mkVarint (JS.ToInt32 (acc mod 2 ^ 32 + w * 2 ^ s))
      (k + length (writeVarint_loop fuel w)).
Proof.
  assert (Hlast : forall (w acc : Z) (k : nat) (s : Z) (rest : Buffer),
            0 <= w < 128 -> 0 <= s <= 31 -> w * 2 ^ s < 2 ^ 32 ->
            acc mod 2 ^ 32 < 2 ^ s ->
            readVarint_from (Buffer_from [JS.and w 0x7f] ++ rest) acc k s =
            mkVarint (JS.ToInt32 (acc mod 2 ^ 32 + w * 2 ^ s)) (k + 1)).
  { intros w acc k s rest Hw Hs Hlt Hacc.
    assert (Hand : JS.and w 0x7f = w)
      by (rewrite and_0x7f, ToInt32_small by lia; apply Z.mod_small; lia).
    rewrite Hand. cbn [Buffer_from map app readVarint_from].
    rewrite Z_of_byte_of_Z by lia.
    rewrite and_0x80_small by lia. rewrite Hand.
    rewrite Z.eqb_refl, Nat.add_1_r. f_equal.
    apply int32_of_residue; [apply or_range|].
    rewrite accumulate_step_unsigned by lia.
    symmetry. apply Z.mod_small.
    rewrite <- (accumulate_step_unsigned acc w s) by lia.
    apply Z.mod_pos_bound. lia. }
  induction fuel as [|fuel IH]; intros w acc k s rest Hw0 Hw Hs Hlt Hacc.
  - change (128 ^ Z.of_nat 1) with 128 in Hw.
    cbn [writeVarint_loop length]. apply Hlast; lia.
  - cbn [writeVarint_loop].
    destruct (Z.ltb_spec 0x7f w) as [Hbig|Hsmall];
      [|cbn [length]; apply Hlast; lia].
    assert (H2s : 0 < 2 ^ s) by (apply Z.pow_pos_nonneg; lia).
    assert (Hw32 : w < 2 ^ 32) by nia.
    pose proof (and_0x7f_range w) as Hm.
    assert (Hmod : JS.and w 0x7f = w mod 128)
      by (rewrite and_0x7f; apply ToInt32_mod_128).
    destruct (continuation_byte (JS.and w 0x7f) Hm) as (Hor & Hlow & Hhigh).
    rewrite Hor.
    cbn [Buffer_from map app readVarint_from length].
    fold (Buffer_from (writeVarint_loop fuel (JS.ushr w 7))).
    rewrite Z_of_byte_of_Z by lia.
    rewrite Hlow. apply Z.eqb_neq in Hhigh. rewrite Hhigh.
    rewrite ushr_7_small by lia.
    pose proof (Z.div_mod w 128 ltac:(lia)) as Hdm.
    pose proof (Z.mod_pos_bound w 128 ltac:(lia)) as Hmb.
    pose proof (Z.mod_pos_bound acc (2 ^ 32) ltac:(lia)) as Ha.
    assert (Hq : 1 <= w / 128) by (apply Z.div_le_lower_bound; lia).
    assert (Hpow : 2 ^ (s + 7) = 2 ^ s * 128)
      by (rewrite Z.pow_add_r by lia; reflexivity).
    assert (Hs7 : s + 7 <= 31).
    { assert (Hlt2 : 2 ^ (s + 7) < 2 ^ 32) by nia.
      apply Z.pow_lt_mono_r_iff in Hlt2; lia. }
    rewrite Hmod in *.
    assert (Hstep : JS.or acc (JS.shl (w mod 128) s) mod 2 ^ 32
                    = acc mod 2 ^ 32 + w mod 128 * 2 ^ s)
      by (apply accumulate_step_unsigned; nia).
    rewrite IH.
    + rewrite Hstep. f_equal; [f_equal; nia|lia].
    + lia.
    + apply Z.div_lt_upper_bound; [lia|].
      replace (Z.of_nat (S (S fuel))) with (Z.of_nat (S fuel) + 1) in Hw by lia.
      rewrite Z.pow_add_r in Hw by lia.
      change (128 ^ 1) with 128 in Hw. lia.
    + lia.
    + nia.
    + rewrite Hstep. nia.
Qed.

(** X1.  For every non-negative integer, reading back what [writeVarint]
    wrote, at any place in a buffer and whatever follows, consumes exactly
    the written bytes and yields the value reduced to a signed 32-bit
    integer: the value itself below 2^31, the value minus 2^32 from 2^31
    up to 2^32, and the low 32 bits beyond. *)
Theorem readVarint_writeVarint_int32 (v : Z) (before rest : Buffer) :
  0 <= v ->
  readVarint (before ++ writeVarint v ++ rest) (length before) =
  mkVarint (JS.ToInt32 v) (length (writeVarint v)).
Proof.
  intros Hv. rewrite readVarint_skipn.
  rewrite skipn_app, skipn_all, Nat.sub_diag. cbn [app skipn].
  unfold writeVarint. rewrite (writeVarint_loop_S 4 v).
  destruct (Z.ltb_spec 0x7f v) as [Hbig|Hsmall].
  - pose proof (and_0x7f_range v) as Hm.
    destruct (continuation_byte (JS.and v 0x7f) Hm) as (Hor & Hlow & Hhigh).
    rewrite Hor.
    cbn [Buffer_from map app readVarint_from length].
    fold (Buffer_from (writeVarint_loop 4 (JS.ushr v 7))).
    rewrite Z_of_byte_of_Z by lia.
    rewrite Hlow. apply Z.eqb_neq in Hhigh. rewrite Hhigh.
    change (0 + 7) with 7.
    pose proof (ushr_7_range v) as Hu.
    assert (Hstep : JS.or 0 (JS.shl (JS.and v 0x7f) 0) mod 2 ^ 32
                    = JS.and v 0x7f)
      by (rewrite accumulate_step_unsigned;
          [change (0 mod 2 ^ 32) with 0; change (2 ^ 0) with 1; lia
          |lia|lia|change (2 ^ 0) with 1; lia
          |change (0 mod 2 ^ 32) with 0; change (2 ^ 0) with 1; lia]).
    rewrite read_written_unsigned.
    + rewrite Hstep. f_equal; [|unfold Buffer_from; rewrite length_map; lia].
      rewrite <- (ToInt32_of_mod v). f_equal.
      rewrite and_0x7f, ToInt32_mod_128, ushr_7.
      change (2 ^ 7) with 128.
      pose proof (Z.div_mod (v mod 2 ^ 32) 128 ltac:(lia)) as Hdm.
      assert (Hmm : (v mod 2 ^ 32) mod 128 = v mod 128)
        by (change (2 ^ 32) with (128 * 2 ^ 25);
            apply Z.mod_mod_divide; exists (2 ^ 25); lia).
      lia.
    + lia.
    + change (128 ^ Z.of_nat 5) with (2 ^ 35). lia.
    + lia.
    + change (2 ^ 7) with 128. lia.
    + rewrite Hstep. change (2 ^ 7) with 128. lia.
  - change [JS.and v 0x7f] with (writeVarint_loop 0 v).
    rewrite read_written_unsigned.
    + change (0 mod 2 ^ 32) with 0. change (2 ^ 0) with 1.
      f_equal. f_equal. lia.
    + lia.
    + change (128 ^ Z.of_nat 1) with 128. lia.
    + lia.
    + change (2 ^ 0) with 1. lia.
    + change (0 mod 2 ^ 32) with 0. change (2 ^ 0) with 1. lia.
Qed.

Lemma readVarint_writeVarint_int32_witness :
  readVarint ([x80] ++ writeVarint 4294967295 ++ [x07]) (length [x80]) =
  mkVarint (JS.ToInt32 4294967295) (length (writeVarint 4294967295)).
Proof.
  apply (readVarint_writeVarint_int32 4294967295 [x80] [x07]). lia.
Defined.

(** ** Shape and length of a written varint *)

Lemma final_byte (w : Z) : continues (byte_of_Z (JS.and w 0x7f)) = false.
Proof.
  pose proof (and_0x7f_range w) as Hm.
  unfold continues. rewrite Z_of_byte_of_Z by lia.
  rewrite and_0x80_small by lia. reflexivity.
Qed.

Lemma continuation_written (w : Z) :
  continues (byte_of_Z (JS.or (JS.and w 0x7f) 0x80)) = true.
Proof.
  pose proof (and_0x7f_range w) as Hm.
  destruct (continuation_byte (JS.and w 0x7f) Hm) as (Hor & _ & Hhigh).
  unfold continues. rewrite Hor, Z_of_byte_of_Z by lia.
  apply Z.eqb_neq in Hhigh. rewrite Hhigh. reflexivity.
Qed.

Lemma writeVarint_loop_shape (fuel : nat) :
  forall w : Z,
    exists (init : Buffer) (last : byte),
      Buffer_from (writeVarint_loop fuel w) = init ++ [last] /\
      forallb continues init = true /\
      continues last = false /\
      (length init <= fuel)%nat.
Proof.
  induction fuel as [|fuel IH]; intros w.
  - exists [], (byte_of_Z (JS.and w 0x7f)).
    repeat split; [apply final_byte|cbn; lia].
  - rewrite writeVarint_loop_S. destruct (0x7f <? w).
    + destruct (IH (JS.ushr w 7)) as (init & last & Heq & Hall & Hlast & Hlen).
      exists (byte_of_Z (JS.or (JS.and w 0x7f) 0x80) :: init), last.
      cbn [Buffer_from map]. fold (Buffer_from (writeVarint_loop fuel (JS.ushr w 7))).
      rewrite Heq. cbn [app forallb length].
      rewrite continuation_written, Hall.
      repeat split; [exact Hlast|lia].
    + exists [], (byte_of_Z (JS.and w 0x7f)).
      repeat split; [apply final_byte|cbn; lia].
Qed.

(** X2.  Whatever number it is given, [writeVarint] returns between one and
    five bytes, of which every byte but the last has the continuation bit
    set and the last has it clear: a written varint is self-delimiting. *)
Theorem writeVarint_self_delimiting :
  forall v : Z,
    exists (init : Buffer) (last : byte),
      writeVarint v = init ++ [last] /\
      forallb continues init = true /\
      continues last = false /\
      (1 <= length (writeVarint v) <= 5)%nat.
Proof.
  intros v.
  assert (Hfuel : writeVarint v = Buffer_from (writeVarint_loop 4 v))
    by (unfold writeVarint; rewrite <- (writeVarint_fuel 4 v) by lia; reflexivity).
  destruct (writeVarint_loop_shape 4 v) as (init & last & Heq & Hall & Hlast & Hlen).
  exists init, last. rewrite Hfuel, Heq.
  repeat split; try assumption; rewrite length_app; cbn [length]; lia.
Qed.

Lemma writeVarint_loop_length (fuel : nat) :
  forall (w : Z) (n : nat),
    0 <= w < 2 ^ 32 ->
    ((length (writeVarint_loop fuel w) <= S n)%nat
     <-> (w < 128 ^ Z.of_nat (S n) \/ (fuel <= n)%nat)).
Proof.
  induction fuel as [|fuel IH]; intros w n Hw.
  - cbn [writeVarint_loop length]. split; [intros _; right; lia|lia].
  - rewrite writeVarint_loop_S.
    assert (Hpow : 128 <= 128 ^ Z.of_nat (S n)).
    { change 128 with (128 ^ 1) at 1. apply Z.pow_le_mono_r; lia. }
    destruct (Z.ltb_spec 0x7f w) as [Hbig|Hsmall].
    + cbn [length]. rewrite ushr_7_small by lia.
      destruct n as [|n].
      * change (128 ^ Z.of_nat 1) with 128.
        pose proof (writeVarint_loop_nonempty fuel (w / 128)). lia.
      * assert (Hq : 0 <= w / 128 < 2 ^ 32).
        { split; [apply Z.div_pos; lia|].
          apply Z.div_lt_upper_bound; lia. }
        assert (Hstep : 128 ^ Z.of_nat (S (S n)) = 128 * 128 ^ Z.of_nat (S n)).
        { replace (Z.of_nat (S (S n))) with (1 + Z.of_nat (S n)) by lia.
          rewrite Z.pow_add_r by lia. reflexivity. }
        rewrite Hstep.
        assert (Hdiv : w / 128 < 128 ^ Z.of_nat (S n)
                       <-> w < 128 * 128 ^ Z.of_nat (S n)).
        { split; intros H.
          - pose proof (Z.div_mod w 128 ltac:(lia)).
            pose proof (Z.mod_pos_bound w 128 ltac:(lia)). lia.
          - apply Z.div_lt_upper_bound; lia. }
        specialize (IH (w / 128) n Hq).
        split.
        -- intros Hlen. assert (Hlen' : (length (writeVarint_loop fuel (w / 128)) <= S n)%nat) by lia.
           apply IH in Hlen'. destruct Hlen' as [H|H]; [left; apply Hdiv; exact H|right; lia].
        -- intros [H|H].
           ++ apply Hdiv in H.
              assert ((length (writeVarint_loop fuel (w / 128)) <= S n)%nat)
                by (apply IH; left; exact H).
              lia.
           ++ assert ((length (writeVarint_loop fuel (w / 128)) <= S n)%nat)
                by (apply IH; right; lia).
              lia.
    + cbn [length]. split; [intros _; left; lia|lia].
Qed.

Lemma writeVarint_minimal_bound (v : Z) (n : nat) :
  0 <= v < 128 ^ Z.of_nat (S n) -> v < 2 ^ 32 ->
  (length (writeVarint v) <= S n)%nat.
Proof.
  intros Hv Hv32. unfold writeVarint, Buffer_from. rewrite length_map.
  apply writeVarint_loop_length; [lia|]. left. lia.
Qed.

(** X3.  For a value of the unsigned 32-bit range the written varint is
    the shortest one: it fits [n + 1] bytes exactly when the value is below
    128^(n+1). *)
Theorem writeVarint_minimal (v : Z) (n : nat) :
  0 <= v < 2 ^ 32 ->
  ((length (writeVarint v) <= S n)%nat <-> v < 128 ^ Z.of_nat (S n)).
Proof.
  intros Hv. unfold writeVarint, Buffer_from. rewrite length_map.
  rewrite writeVarint_loop_length by exact Hv.
  split; [|intros H; left; exact H].
  intros [H|H]; [exact H|].
  assert (Hle : 128 ^ 6 <= 128 ^ Z.of_nat (S n))
    by (apply Z.pow_le_mono_r; lia).
  change (128 ^ 6) with (2 ^ 42) in Hle. lia.
Qed.

Lemma writeVarint_minimal_witness :
  (length (writeVarint 16383) <= 2)%nat <-> 16383 < 128 ^ Z.of_nat 2.
Proof.
  apply (writeVarint_minimal 16383 1). lia.
Defined.

(** ** Ranges of what the reader and the parser return *)

Lemma readVarint_from_range (rest : Buffer) :
  forall (acc : Z) (k : nat) (s : Z),
    - 2 ^ 31 <= acc < 2 ^ 31 ->
    - 2 ^ 31 <= value (readVarint_from rest acc k s) < 2 ^ 31 /\
    (rest <> [] -> (k + 1 <= bytesRead (readVarint_from rest acc k s))%nat) /\
    (k <= bytesRead (readVarint_from rest acc k s))%nat.
Proof.
  induction rest as [|b rest IH]; intros acc k s Hacc; cbn [readVarint_from].
  - cbn [value bytesRead]. repeat split; try lia. intros H; contradiction.
  - destruct (JS.and (Z_of_byte b) 128 =? 0).
    + cbn [value bytesRead].
      pose proof (or_range acc (JS.shl (JS.and (Z_of_byte b) 127) s)).
      repeat split; lia.
    + destruct (IH (JS.or acc (JS.shl (JS.and (Z_of_byte b) 127) s)) (S k) (s + 7))
        as (Hv & _ & Hk); [apply or_range|].
      repeat split; lia.
Qed.

(** X4.  The value [readVarint] returns is always a signed 32-bit integer,
    and whenever the offset lies inside the buffer at least one byte is
    consumed. *)
Theorem readVarint_result_range :
  forall (buffer : Buffer) (offset : nat),
    - 2 ^ 31 <= value (readVarint buffer offset) < 2 ^ 31 /\
    ((offset < length buffer)%nat ->
     (1 <= bytesRead (readVarint buffer offset))%nat).
Proof.
  intros buffer offset. rewrite readVarint_skipn.
  destruct (readVarint_from_range (skipn offset buffer) 0 0%nat 0)
    as (Hv & Hpos & _); [lia|].
  split; [exact Hv|].
  intros Hlt. apply Hpos. intros Hnil.
  apply (f_equal (@length byte)) in Hnil.
  rewrite length_skipn in Hnil. cbn [length] in Hnil. lia.
Qed.

Lemma readVarint_result_range_witness :
  (1 <= bytesRead (readVarint [xff; xff; xff; xff; xff] 0))%nat.
Proof.
  apply (proj2 (readVarint_result_range [xff; xff; xff; xff; xff] 0)).
  simpl. lia.
Defined.

Lemma and_ones_range (x k : Z) :
  0 <= k < 31 -> 0 <= JS.and x (Z.ones k) <= Z.ones k.
Proof.
  intros Hk.
  assert (H2k : 0 < 2 ^ k) by (apply Z.pow_pos_nonneg; lia).
  assert (Hlt : 2 ^ k < 2 ^ 31) by (apply Z.pow_lt_mono_r; lia).
  assert (Hones : Z.ones k = 2 ^ k - 1) by (rewrite Z.ones_equiv; lia).
  unfold JS.and. rewrite (ToInt32_small (Z.ones k)) by lia.
  rewrite Z.land_ones by lia.
  pose proof (Z.mod_pos_bound (JS.ToInt32 x) (2 ^ k) H2k). lia.
Qed.

(** X5.  Every packet [parseAudioPacket] returns has a codec in [0, 7], a
    target in [0, 31], and a source and a sequence that are signed 32-bit
    integers; its payload is a contiguous piece of the input that starts
    after the header byte.  An Opus payload has at most 0x1fff bytes; a
    packet of another codec is never a terminator and its payload runs to
    the end of the input. *)
Theorem parseAudioPacket_fields :
  forall (data : Buffer) (p : FullAudioPacket),
    parseAudioPacket data = Some p ->
    0 <= codec p <= 7 /\
    0 <= target p <= 31 /\
    - 2 ^ 31 <= source p < 2 ^ 31 /\
    - 2 ^ 31 <= sequence p < 2 ^ 31 /\
    (codec p = codec_tag Opus -> Z.of_nat (length (audioData p)) <= 0x1fff) /\
    (codec p <> codec_tag Opus -> isTerminator p = false) /\
    exists before after : Buffer,
      data = before ++ audioData p ++ after /\
      (1 <= length before)%nat /\
      (codec p <> codec_tag Opus -> after = []).
Proof.
  intros data p. unfold parseAudioPacket. cbv zeta.
  destruct (Nat.ltb_spec (length data) 1) as [|Hlen]; [discriminate|].
  set (header := Buffer_get data 0).
  set (session := readVarint data 1).
  set (seq := readVarint data (1 + bytesRead session)).
  set (offset := (1 + bytesRead session + bytesRead seq)%nat).
  pose proof (and_ones_range (JS.shr header 5) 3 ltac:(lia)) as Hc.
  pose proof (and_ones_range header 5 ltac:(lia)) as Ht.
  change (Z.ones 3) with 0x07 in Hc. change (Z.ones 5) with 0x1f in Ht.
  fold (header_codec header) in Hc. fold (header_target header) in Ht.
  destruct (readVarint_result_range data 1) as [Hsrc _].
  destruct (readVarint_result_range data (1 + bytesRead session)) as [Hseq _].
  fold session in Hsrc. fold seq in Hseq.
  pose proof (readVarint_bound data 1) as Hb1. fold session in Hb1.
  pose proof (readVarint_bound data (1 + bytesRead session)) as Hb2. fold seq in Hb2.
  destruct (Z.eqb_spec (header_codec header) (codec_tag Opus)) as [Hopus|Hother].
  - set (opusHeader := readVarint data offset).
    pose proof (readVarint_bound data offset) as Hb3. fold opusHeader in Hb3.
    pose proof (and_ones_range (value opusHeader) 13 ltac:(lia)) as Hl.
    change (Z.ones 13) with 0x1fff in Hl.
    set (audioLength := JS.and (value opusHeader) 0x1fff) in *.
    destruct (Z.ltb_spec (Z.of_nat (length data))
                (Z.of_nat (offset + bytesRead opusHeader) + audioLength))
      as [|Hfits]; [discriminate|].
    intros Hp. injection Hp as <-.
    cbn [codec target source sequence audioData isTerminator].
    unfold subarray.
    match goal with
    | |- context [firstn ?n (skipn ?o data)] =>
        replace n with (Z.to_nat audioLength) by lia;
        replace o with (offset + bytesRead opusHeader)%nat by (unfold offset; lia)
    end.
    repeat split; try lia.
    + intros _. pose proof (firstn_le_length (Z.to_nat audioLength)
                              (skipn (offset + bytesRead opusHeader) data)).
      lia.
    + exists (firstn (offset + bytesRead opusHeader) data),
             (skipn (Z.to_nat audioLength)
                (skipn (offset + bytesRead opusHeader) data)).
      rewrite !firstn_skipn. repeat split.
      * rewrite length_firstn. unfold offset. lia.
      * intros H. contradiction.
  - intros Hp. injection Hp as <-.
    cbn [codec target source sequence audioData isTerminator].
    repeat split; try lia.
    exists (firstn offset data), [].
    unfold subarray_from. rewrite app_nil_r, firstn_skipn.
    repeat split. rewrite length_firstn. unfold offset. lia.
Qed.

Lemma parseAudioPacket_fields_witness :
  let data := [x80; x01; x02; x03; x0a; x0b; x0c; x0d] in
  let p := mkPacket 1 4 0 2 [x0a; x0b; x0c] false in
  0 <= codec p <= 7 /\
  0 <= target p <= 31 /\
  - 2 ^ 31 <= source p < 2 ^ 31 /\
  - 2 ^ 31 <= sequence p < 2 ^ 31 /\
  (codec p = codec_tag Opus -> Z.of_nat (length (audioData p)) <= 0x1fff) /\
  (codec p <> codec_tag Opus -> isTerminator p = false) /\
  exists before after : Buffer,
    data = before ++ audioData p ++ after /\
    (1 <= length before)%nat /\
    (codec p <> codec_tag Opus -> after = []).
Proof.
  apply (parseAudioPacket_fields [x80; x01; x02; x03; x0a; x0b; x0c; x0d]
           (mkPacket 1 4 0 2 [x0a; x0b; x0c] false)).
  vm_compute. reflexivity.
Defined.

(** ** The header byte, both ways *)

Lemma and_0x1f (z : Z) : JS.and z 0x1f = JS.ToInt32 z mod 32.
Proof.
  unfold JS.and. rewrite (ToInt32_small 0x1f) by lia.
  change 0x1f with (Z.ones 5). rewrite Z.land_ones by lia. reflexivity.
Qed.

Lemma createAudioPacket_cons (c : AudioCodec) (t seq : Z) (payload : Buffer)
    (term : bool) :
  exists rest : Buffer,
    createAudioPacket c t seq payload term
    = byte_of_Z (JS.or (JS.shl (JS.and (codec_tag c) 0x07) 5) (JS.and t 0x1f))
      :: rest.
Proof.
  unfold createAudioPacket. cbv zeta.
  destruct (codec_tag c =? codec_tag Opus); eexists; reflexivity.
Qed.

(** X6.  Whatever number is passed as target, the first byte of a created
    packet carries the codec of the enumeration in its top three bits and
    the target reduced modulo 32 in its low five bits: an out-of-range
    target is masked and never spills into the codec. *)
Theorem createAudioPacket_header (c : AudioCodec) (t seq : Z)
    (payload : Buffer) (term : bool) :
  exists (h : byte) (rest : Buffer),
    createAudioPacket c t seq payload term = h :: rest /\
    header_codec (Z_of_byte h) = codec_tag c /\
    header_target (Z_of_byte h) = JS.ToInt32 t mod 32.
Proof.
  destruct (createAudioPacket_cons c t seq payload term) as [rest Hrest].
  pose proof (Z.mod_pos_bound (JS.ToInt32 t) 32 ltac:(lia)) as Hm.
  assert (Hidem : JS.and (JS.ToInt32 t mod 32) 0x1f = JS.and t 0x1f).
  { rewrite !and_0x1f, ToInt32_small by lia. apply Z.mod_mod. lia. }
  destruct (header_pack c (JS.ToInt32 t mod 32)) as (Hh & Hc & Ht); [lia|].
  cbv zeta in Hh, Hc, Ht. rewrite Hidem in Hh, Hc, Ht.
  eexists. exists rest. split; [exact Hrest|].
  rewrite Z_of_byte_of_Z by exact Hh. split; assumption.
Qed.

Lemma header_byte_repacked (h : byte) :
  byte_of_Z (JS.or (JS.shl (JS.and (header_codec (Z_of_byte h)) 0x07) 5)
               (JS.and (header_target (Z_of_byte h)) 0x1f)) = h.
Proof.
  destruct h; vm_compute; reflexivity.
Qed.

(** X7.  Building a packet from the codec and target of a parsed packet
    gives back the header byte of the parsed buffer, whenever the parsed
    codec is one of the enumeration. *)
Theorem parsed_header_rebuilt
    (data : Buffer) (p : FullAudioPacket) (c : AudioCodec) (seq : Z)
    (payload : Buffer) (term : bool) :
  parseAudioPacket data = Some p ->
  codec p = codec_tag c ->
  exists (h : byte) (rest rest' : Buffer),
    data = h :: rest /\
    createAudioPacket c (target p) seq payload term = h :: rest'.
Proof.
  intros Hp Hc.
  destruct data as [|h rest]; [discriminate Hp|].
  apply parseAudioPacket_header in Hp. destruct Hp as (_ & Hcodec & Htarget).
  change (Buffer_get (h :: rest) 0) with (Z_of_byte h) in Hcodec, Htarget.
  destruct (createAudioPacket_cons c (target p) seq payload term) as [rest' Hrest'].
  exists h, rest, rest'. split; [reflexivity|].
  rewrite Hrest'. f_equal.
  rewrite <- Hc, Hcodec, Htarget. apply header_byte_repacked.
Qed.

Lemma parsed_header_rebuilt_witness :
  exists (h : byte) (rest rest' : Buffer),
    [x9f; x01; x02; x00] = h :: rest /\
    createAudioPacket Opus (target (mkPacket 1 4 31 2 [] false)) 7 [x01] true
    = h :: rest'.
Proof.
  apply (parsed_header_rebuilt [x9f; x01; x02; x00]
           (mkPacket 1 4 31 2 [] false) Opus 7 [x01] true).
  - vm_compute. reflexivity.
  - reflexivity.
Defined.

(** ** Size of a created packet *)

Lemma writeVarint_length (v : Z) : (1 <= length (writeVarint v) <= 5)%nat.
Proof.
  unfold writeVarint, Buffer_from. rewrite length_map.
  destruct (writeVarint_loop_shape 5 v) as (init & last & Heq & _ & _ & Hlen).
  apply (f_equal (@length byte)) in Heq.
  unfold Buffer_from in Heq. rewrite length_map, length_app in Heq.
  cbn [length] in Heq.
  rewrite <- (writeVarint_fuel 4 v) in * by lia.
  destruct (writeVarint_loop_shape 4 v) as (init4 & last4 & Heq4 & _ & _ & Hlen4).
  apply (f_equal (@length byte)) in Heq4.
  unfold Buffer_from in Heq4. rewrite length_map, length_app in Heq4.
  cbn [length] in Heq4. lia.
Qed.

Lemma opus_field_range (len : Z) (term : bool) :
  let field := if term then JS.or (JS.and len 0x1fff) 0x2000
               else JS.and len 0x1fff in
  0 <= field < 2 ^ 14 /\ JS.and field 0x1fff = JS.and len 0x1fff
  /\ negb (JS.and field 0x2000 =? 0) = term.
Proof.
  pose proof (and_ones_range len 13 ltac:(lia)) as Hm.
  change (Z.ones 13) with 0x1fff in Hm.
  destruct (opus_length_field (JS.and len 0x1fff) term) as (Hr & Hl & Hf); [lia|].
  cbv zeta in Hr, Hl, Hf.
  assert (Hidem : JS.and (JS.and len 0x1fff) 0x1fff = JS.and len 0x1fff).
  { unfold JS.and at 1. rewrite !ToInt32_small by lia.
    apply (land_ones_small 13); lia. }
  rewrite Hidem in Hr, Hl, Hf. cbv zeta. auto.
Qed.

(** X8.  A created packet is the payload, byte for byte and in full, behind
    a head of two to eight bytes (at most six when the codec is not Opus):
    [createAudioPacket] never drops or alters a payload byte, whatever the
    payload length. *)
Theorem createAudioPacket_length (c : AudioCodec) (t seq : Z)
    (payload : Buffer) (term : bool) :
  let packet := createAudioPacket c t seq payload term in
  (length payload + 2 <= length packet <= length payload + 8)%nat /\
  (c <> Opus -> (length packet <= length payload + 6)%nat) /\
  (c = Opus -> (length payload + 3 <= length packet)%nat) /\
  skipn (length packet - length payload) packet = payload.
Proof.
  cbv zeta. unfold createAudioPacket. cbv zeta.
  pose proof (writeVarint_length seq) as Hseq.
  destruct (Z.eqb_spec (codec_tag c) (codec_tag Opus)) as [Heq|Hne].
  - set (field := if term
                  then JS.or (JS.and (Z.of_nat (length payload)) 0x1fff) 0x2000
                  else JS.and (Z.of_nat (length payload)) 0x1fff).
    destruct (opus_field_range (Z.of_nat (length payload)) term) as (Hr & _ & _).
    cbv zeta in Hr. fold field in Hr.
    pose proof (writeVarint_length field) as Hf1.
    assert (Hf2 : (length (writeVarint field) <= 2)%nat).
    { apply writeVarint_minimal_bound;
        [change (128 ^ Z.of_nat 2) with (2 ^ 14)|]; lia. }
    rewrite !length_app. cbn [Buffer_from map length].
    repeat split; try lia.
    + intros Hc. exfalso. apply Hc. destruct c; cbn in Heq; congruence || lia.
    + rewrite (app_assoc (writeVarint seq)), (app_assoc [_]).
      rewrite skipn_app, skipn_all2 by (rewrite !length_app; cbn [length]; lia).
      rewrite !length_app. cbn [length app].
      replace (_ - _ - _)%nat with 0%nat by lia. reflexivity.
  - rewrite !length_app. cbn [Buffer_from map length].
    repeat split; try lia.
    + intros ->. exfalso. apply Hne. reflexivity.
    + rewrite (app_assoc [_]).
      rewrite skipn_app, skipn_all2 by (rewrite !length_app; cbn [length]; lia).
      rewrite !length_app. cbn [length app].
      replace (_ - _ - _)%nat with 0%nat by lia. reflexivity.
Qed.

(** ** Relayed packets with fewer or more bytes than declared *)

Lemma parse_opus_wire (h : byte) (session seq field : Z) (bytes : Buffer) :
  0 <= session < 2 ^ 31 -> 0 <= seq < 2 ^ 31 -> 0 <= field < 2 ^ 31 ->
  header_codec (Z_of_byte h) = codec_tag Opus ->
  parseAudioPacket
    (h :: writeVarint session ++ writeVarint seq ++ writeVarint field ++ bytes)
  = if Z.of_nat (length bytes) <? JS.and field 0x1fff then None
    else Some (mkPacket session (codec_tag Opus) (header_target (Z_of_byte h)) seq
                 (firstn (Z.to_nat (JS.and field 0x1fff)) bytes)
                 (negb (JS.and field 0x2000 =? 0))).
Proof.
  intros Hsession Hseq Hfield Hopus.
  rewrite parseAudioPacket_layout by assumption.
  rewrite Hopus. change (codec_tag Opus =? codec_tag Opus) with true. cbv iota.
  assert (E : readVarint (writeVarint field ++ bytes) 0
              = mkVarint field (length (writeVarint field)))
    by (apply (readVarint_writeVarint field [] bytes); lia).
  rewrite E. cbn [bytesRead value]. rewrite length_app.
  replace (length (writeVarint field) + length bytes
           - length (writeVarint field))%nat with (length bytes) by lia.
  rewrite skipn_app, skipn_all, Nat.sub_diag. cbn [skipn app].
  reflexivity.
Qed.

Lemma relayed_createAudioPacket (c : AudioCodec) (t seq session : Z)
    (payload : Buffer) (term : bool) :
  relayed session (createAudioPacket c t seq payload term)
  = byte_of_Z (JS.or (JS.shl (JS.and (codec_tag c) 0x07) 5) (JS.and t 0x1f))
    :: writeVarint session ++ writeVarint seq
    ++ (if codec_tag c =? codec_tag Opus
        then writeVarint
               (if term
                then JS.or (JS.and (Z.of_nat (length payload)) 0x1fff) 0x2000
                else JS.and (Z.of_nat (length payload)) 0x1fff)
             ++ payload
        else payload).
Proof.
  unfold createAudioPacket. cbv zeta.
  destruct (codec_tag c =? codec_tag Opus); reflexivity.
Qed.

Lemma codec_tag_Opus (c : AudioCodec) :
  codec_tag c = codec_tag Opus -> c = Opus.
Proof.
  destruct c; cbn; intros H; try reflexivity; lia.
Qed.

(** A relayed Opus packet followed by, or cut down to, any [bytes] in the
    place of its payload. *)
Lemma parse_relayed_opus (t seq session len : Z) (term : bool) (bytes : Buffer) :
  0 <= t <= 31 -> 0 <= seq < 2 ^ 31 -> 0 <= session < 2 ^ 31 ->
  0 <= len <= 0x1fff ->
  parseAudioPacket
    (byte_of_Z (JS.or (JS.shl (JS.and (codec_tag Opus) 0x07) 5) (JS.and t 0x1f))
     :: writeVarint session ++ writeVarint seq
     ++ writeVarint (if term then JS.or (JS.and len 0x1fff) 0x2000
                     else JS.and len 0x1fff)
     ++ bytes)
  = if Z.of_nat (length bytes) <? len then None
    else Some (mkPacket session (codec_tag Opus) t seq
                 (firstn (Z.to_nat len) bytes) term).
Proof.
  intros Ht Hseq Hsession Hlen.
  destruct (header_pack Opus t Ht) as (Hh & Hc & Htg). cbv zeta in Hh, Hc, Htg.
  destruct (opus_length_field len term Hlen) as (Hr & Hl & Hf).
  cbv zeta in Hr, Hl, Hf.
  rewrite parse_opus_wire; try assumption; try lia.
  - rewrite Z_of_byte_of_Z by exact Hh. rewrite Hl, Hf, Htg. reflexivity.
  - rewrite Z_of_byte_of_Z by exact Hh. exact Hc.
Qed.

(** X9.  A relayed Opus packet that is cut off anywhere inside its payload
    is rejected: the parser returns null instead of a shortened payload. *)
Theorem relayed_opus_cut_rejected
    (t seq session : Z) (payload : Buffer) (term : bool) (cut : nat) :
  0 <= t <= 31 -> 0 <= seq < 2 ^ 31 -> 0 <= session < 2 ^ 31 ->
  Z.of_nat (length payload) <= 0x1fff ->
  let full := relayed session (createAudioPacket Opus t seq payload term) in
  (length full - length payload <= cut < length full)%nat ->
  parseAudioPacket (firstn cut full) = None.
Proof.
  intros Ht Hseq Hsession Hlen full Hcut. unfold full in *. clear full.
  rewrite relayed_createAudioPacket in *.
  change (codec_tag Opus =? codec_tag Opus) with true in *. cbv iota in *.
  set (h := byte_of_Z _) in *.
  set (field := if term then _ else _) in *.
  set (head := h :: writeVarint session ++ writeVarint seq ++ writeVarint field).
  assert (Hfull : h :: writeVarint session ++ writeVarint seq
                  ++ writeVarint field ++ payload = head ++ payload)
    by (unfold head; cbn [app]; rewrite <- !app_assoc; reflexivity).
  rewrite Hfull in *. rewrite length_app in Hcut.
  rewrite firstn_app, firstn_all2 by lia.
  assert (Hk : (length (firstn (cut - length head) payload) < length payload)%nat)
    by (rewrite length_firstn; lia).
  unfold head. cbn [app]. rewrite <- !app_assoc.
  unfold h, field. rewrite parse_relayed_opus by lia.
  match goal with
  | |- (if ?a <? ?b then _ else _) = _ =>
      destruct (Z.ltb_spec a b) as [Hshort|Hfits]
  end; [reflexivity|].
  exfalso. revert Hfits. fold h field. fold head. lia.
Qed.

Lemma relayed_opus_cut_rejected_witness :
  parseAudioPacket
    (firstn 7 (relayed 9 (createAudioPacket Opus 0 300 [x0a; x0b; x0c] true)))
  = None.
Proof.
  apply (relayed_opus_cut_rejected 0 300 9 [x0a; x0b; x0c] true 7).
  - lia.
  - lia.
  - lia.
  - simpl. lia.
  - vm_compute. lia.
Defined.

(** X10.  Bytes that follow a relayed packet are ignored when the codec is
    Opus, whose payload ends where its length field says, and are taken as
    more payload for every other codec. *)
Theorem relayed_with_trailing_bytes
    (c : AudioCodec) (t seq session : Z) (payload extra : Buffer) (term : bool) :
  0 <= t <= 31 -> 0 <= seq < 2 ^ 31 -> 0 <= session < 2 ^ 31 ->
  (c = Opus -> Z.of_nat (length payload) <= 0x1fff) ->
  (c <> Opus -> term = false) ->
  parseAudioPacket
    (relayed session (createAudioPacket c t seq payload term) ++ extra)
  = Some (mkPacket session (codec_tag c) t seq
            (if codec_tag c =? codec_tag Opus then payload else payload ++ extra)
            term).
Proof.
  intros Ht Hseq Hsession Hopus Hterm.
  rewrite relayed_createAudioPacket.
  destruct (Z.eqb_spec (codec_tag c) (codec_tag Opus)) as [Heq|Hne].
  - apply codec_tag_Opus in Heq. subst c. specialize (Hopus eq_refl).
    cbn [app]. rewrite <- !app_assoc.
    rewrite parse_relayed_opus by lia.
    rewrite length_app.
    destruct (Z.ltb_spec (Z.of_nat (length payload + length extra))
                (Z.of_nat (length payload))); [lia|].
    rewrite Nat2Z.id, firstn_app, Nat.sub_diag, firstn_all. cbn [firstn].
    rewrite app_nil_r. reflexivity.
  - assert (Hc : c <> Opus) by (intros ->; apply Hne; reflexivity).
    rewrite (Hterm Hc).
    destruct (header_pack c t Ht) as (Hh & Hcodec & Htg).
    cbv zeta in Hh, Hcodec, Htg.
    cbn [app]. rewrite <- !app_assoc.
    rewrite parseAudioPacket_layout by assumption.
    rewrite Z_of_byte_of_Z by exact Hh. rewrite Hcodec, Htg.
    apply Z.eqb_neq in Hne. rewrite Hne. reflexivity.
Qed.

Lemma relayed_with_trailing_bytes_witness :
  parseAudioPacket
    (relayed 9 (createAudioPacket Opus 3 300 [x0a; x0b] true) ++ [xff; xfe])
  = Some (mkPacket 9 (codec_tag Opus) 3 300
            (if codec_tag Opus =? codec_tag Opus then [x0a; x0b]
             else [x0a; x0b] ++ [xff; xfe])
            true).
Proof.
  apply (relayed_with_trailing_bytes Opus 3 300 9 [x0a; x0b] [xff; xfe] true).
  - lia.
  - lia.
  - lia.
  - intros _. simpl. lia.
  - intros H. exfalso. apply H. reflexivity.
Defined.

(** ** Event histories *)

Section Histories.
Import MumbleAudioStream Wiring Trace.

Lemma host_frames_app (a b : list Event) :
  host_frames (a ++ b) = host_frames a ++ host_frames b.
Proof.
  induction a as [|e a IH]; [reflexivity|].
  destruct e; cbn [app host_frames]; rewrite IH; reflexivity.
Qed.

Lemma delivered_app (a b : list Event) :
  delivered (a ++ b) = delivered a ++ delivered b.
Proof.
  induction a as [|e a IH]; [reflexivity|].
  destruct e; cbn [app delivered]; rewrite IH; reflexivity.
Qed.

Lemma written_app (a b : list Event) :
  written (a ++ b) = written a ++ written b.
Proof.
  induction a as [|e a IH]; [reflexivity|].
  destruct e; cbn [app written]; rewrite IH; reflexivity.
Qed.

Lemma run_app (ops1 ops2 : list Op) (s : Stream) :
  run (ops1 ++ ops2) s = run ops2 (run ops1 s).
Proof.
  unfold run. apply fold_left_app.
Qed.

(** What a call of a function object can add to the history. *)
Lemma invoke_events (fuel : nat) :
  forall (s : Stream) (f : addr) (this : ThisArg) (data : Buffer),
    exists evs : list Event,
      events (invoke fuel s f this data) = events s ++ evs /\
      written evs = [] /\
      filter is_complete evs = [] /\
      (audioSubject_isStopped s = true ->
       filter is_subscriber_event evs = []).
Proof.
  induction fuel as [|fuel IH]; intros s f this data; cbn [invoke].
  - exists []. rewrite app_nil_r. auto.
  - destruct (nth_error (functions (socket s)) f) as [[|target|]|].
    + exists [EvHostCall f this data]. cbn. auto.
    + apply IH.
    + set (s1 := match parseAudioPacket data with
                 | Some packet => audioSubject_next packet s
                 | None => s
                 end).
      assert (H1 : exists evs1,
                 events s1 = events s ++ evs1 /\ written evs1 = [] /\
                 filter is_complete evs1 = [] /\
                 (audioSubject_isStopped s = true ->
                  filter is_subscriber_event evs1 = []) /\
                 audioSubject_isStopped s1 = audioSubject_isStopped s).
      { unfold s1, audioSubject_next.
        destruct (parseAudioPacket data) as [packet|];
          [|exists []; rewrite app_nil_r; auto].
        destruct (audioSubject_isStopped s) eqn:Hstopped.
        - exists []. rewrite app_nil_r. auto.
        - exists [EvNext packet]. cbn. repeat split; auto. discriminate. }
      destruct H1 as (evs1 & He1 & Hw1 & Hc1 & Hq1 & Hst1).
      destruct (originalDecodeAudio s1) as [original|].
      * destruct (IH s1 original ThisStream data) as (evs2 & He2 & Hw2 & Hc2 & Hq2).
        exists (evs1 ++ evs2).
        rewrite He2, He1, <- app_assoc, written_app, !filter_app, Hw1, Hw2, Hc1, Hc2.
        repeat split; auto.
        intros Hstopped. rewrite (Hq1 Hstopped), Hq2 by congruence. reflexivity.
      * exists evs1. auto.
    + exists []. rewrite app_nil_r. auto.
Qed.

Lemma inbound_events (s : Stream) (data : Buffer) :
  exists evs : list Event,
    events (inbound s data) = events s ++ evs /\
    written evs = [] /\
    filter is_complete evs = [] /\
    (audioSubject_isStopped s = true -> filter is_subscriber_event evs = []).
Proof.
  unfold inbound. destruct (decodeAudio (socket s)).
  - apply invoke_events.
  - exists []. rewrite app_nil_r. auto.
Qed.

Lemma sendAudio_events (s : Stream) (audioData : Buffer) (c : AudioCodec)
    (t : Z) (term : bool) :
  let packet := createAudioPacket c t (sequence s) audioData term in
  events (snd (sendAudio s audioData c t term))
  = events s ++ map EvWrite
                  (if Z.of_nat (length packet) <=? 0xffffffff
                   then [tunnel_frame packet] else []).
Proof.
  cbv zeta. rewrite sendAudio_spec. cbv zeta.
  destruct (_ <=? _); cbn [snd emit events map].
  - reflexivity.
  - rewrite app_nil_r. reflexivity.
Qed.

Lemma map_EvWrite (frames : list Buffer) :
  written (map EvWrite frames) = frames /\
  host_frames (map EvWrite frames) = [] /\
  delivered (map EvWrite frames) = [] /\
  filter is_complete (map EvWrite frames) = [] /\
  filter is_subscriber_event (map EvWrite frames) = [].
Proof.
  induction frames as [|d frames (IH1 & IH2 & IH3 & IH4 & IH5)]; cbn; auto.
  rewrite IH1. auto.
Qed.

Lemma destroy_events (s : Stream) :
  audioSubject_isStopped (destroy s) = true /\
  events (destroy s)
  = events s ++ (if audioSubject_isStopped s then [] else [EvComplete]).
Proof.
  unfold destroy, audioSubject_complete, set_decodeAudio.
  destruct (audioSubject_isStopped s) eqn:Hstopped.
  - rewrite app_nil_r. destruct (originalDecodeAudio s); cbn; auto.
  - cbn [originalDecodeAudio emit]. destruct (originalDecodeAudio s); cbn; auto.
Qed.

(** X11.  The buffers handed to the transport over the whole life of a
    stream are, in order, the tunnel frames of its sends, the k-th send
    carrying sequence number k - 1; receiving frames and [destroy] write
    nothing and do not disturb the numbering, and a send whose packet would
    not fit the 32-bit length of the prefix writes nothing but still uses
    up its number. *)
Theorem written_frames_numbered :
  forall (sock0 : Socket) (ops : list Op),
    written (events (run ops (constructor sock0))) = numbered_frames 0 ops.
Proof.
  intros sock0 ops.
  assert (Hgen : forall (l : list Op) (s : Stream),
             written (events (run l s))
             = written (events s) ++ numbered_frames (sequence s) l).
  { induction l as [|op l IH]; intros s; cbn [run fold_left numbered_frames].
    - rewrite app_nil_r. reflexivity.
    - fold (run l (step s op)). rewrite IH.
      destruct op as [audioData c t term|data|]; cbn [step].
      + destruct (sendAudio_same_wiring s audioData c t term) as [_ ->].
        rewrite sendAudio_events, written_app. cbv zeta.
        destruct (map_EvWrite
                    (if Z.of_nat (length (createAudioPacket c t (sequence s)
                                            audioData term)) <=? 0xffffffff
                     then [tunnel_frame (createAudioPacket c t (sequence s)
                                           audioData term)]
                     else [])) as [-> _].
        rewrite <- app_assoc. reflexivity.
      + destruct (inbound_same_wiring s data) as [_ ->].
        destruct (inbound_events s data) as (evs & -> & Hw & _).
        rewrite written_app, Hw, app_nil_r. reflexivity.
      + rewrite destroy_sequence.
        destruct (destroy_events s) as [_ ->].
        rewrite written_app.
        destruct (audioSubject_isStopped s); cbn [written];
          rewrite app_nil_r; reflexivity. }
  rewrite Hgen, constructor_sequence.
  unfold constructor, hookAudioDecoding. cbn [socket].
  destruct (decodeAudio sock0); reflexivity.
Qed.

(** X12.  Subscribers are signalled completion exactly once, by the first
    [destroy], however many times [destroy] is called; after that first
    [destroy] nothing more reaches them, whatever frames still arrive. *)
Theorem completion_once_then_silence :
  forall (sock0 : Socket) (ops1 ops2 : list Op),
    let s0 := run ops1 (constructor sock0) in
    let s1 := destroy s0 in
    let s2 := run ops2 s1 in
    length (filter is_complete (events s0))
      = (if existsb is_destroy ops1 then 1 else 0)%nat /\
    length (filter is_complete (events s2)) = 1%nat /\
    exists evs : list Event,
      events s2 = events s1 ++ evs /\
      filter is_subscriber_event evs = [].
Proof.
  intros sock0 ops1 ops2.
  assert (Hcount : forall (l : list Op) (s : Stream),
             length (filter is_complete (events (run l s)))
             = (length (filter is_complete (events s))
                + if audioSubject_isStopped s then 0
                  else if existsb is_destroy l then 1 else 0)%nat /\
             audioSubject_isStopped (run l s)
             = audioSubject_isStopped s || existsb is_destroy l).
  { induction l as [|op l IH]; intros s; cbn [run fold_left existsb].
    - rewrite orb_false_r. destruct (audioSubject_isStopped s); auto.
    - fold (run l (step s op)). destruct (IH (step s op)) as [-> ->].
      destruct op as [audioData c t term|data|]; cbn [step is_destroy orb].
      + destruct (sendAudio_same_wiring s audioData c t term) as [(_ & -> & _) _].
        rewrite sendAudio_events, filter_app. cbv zeta.
        destruct (map_EvWrite
                    (if Z.of_nat (length (createAudioPacket c t (sequence s)
                                            audioData term)) <=? 0xffffffff
                     then [tunnel_frame (createAudioPacket c t (sequence s)
                                           audioData term)]
                     else [])) as (_ & _ & _ & -> & _).
        rewrite app_nil_r. auto.
      + destruct (inbound_same_wiring s data) as [(_ & -> & _) _].
        destruct (inbound_events s data) as (evs & -> & _ & Hc & _).
        rewrite filter_app, Hc, app_nil_r. auto.
      + destruct (destroy_events s) as [-> ->].
        rewrite filter_app, length_app.
        destruct (audioSubject_isStopped s); cbn; split; auto; lia. }
  assert (Hquiet : forall (l : list Op) (s : Stream),
             audioSubject_isStopped s = true ->
             exists evs, events (run l s) = events s ++ evs /\
                         filter is_subscriber_event evs = []).
  { induction l as [|op l IH]; intros s Hstopped; cbn [run fold_left].
    - exists []. rewrite app_nil_r. auto.
    - fold (run l (step s op)).
      assert (Hstep : audioSubject_isStopped (step s op) = true /\
                      exists evs, events (step s op) = events s ++ evs /\
                                  filter is_subscriber_event evs = []).
      { destruct op as [audioData c t term|data|]; cbn [step].
        - destruct (sendAudio_same_wiring s audioData c t term) as [(_ & -> & _) _].
          split; [exact Hstopped|].
          rewrite sendAudio_events. cbv zeta. eexists. split; [reflexivity|].
          apply map_EvWrite.
        - destruct (inbound_same_wiring s data) as [(_ & -> & _) _].
          split; [exact Hstopped|].
          destruct (inbound_events s data) as (evs & He & _ & _ & Hq).
          exists evs. auto.
        - destruct (destroy_events s) as [Hst He]. split; [exact Hst|].
          rewrite He, Hstopped. exists []. auto. }
      destruct Hstep as (Hst & evs1 & He1 & Hq1).
      destruct (IH (step s op) Hst) as (evs2 & He2 & Hq2).
      exists (evs1 ++ evs2).
      rewrite He2, He1, <- app_assoc, filter_app, Hq1, Hq2. auto. }
  cbv zeta.
  assert (Hinit : events (constructor sock0) = [] /\
                  audioSubject_isStopped (constructor sock0) = false)
    by (unfold constructor, hookAudioDecoding; cbn [socket];
        destruct (decodeAudio sock0); auto).
  destruct Hinit as [Hev0 Hst0].
  split; [|split].
  - destruct (Hcount ops1 (constructor sock0)) as [-> _].
    rewrite Hev0, Hst0. reflexivity.
  - change (destroy (run ops1 (constructor sock0)))
      with (run [Destroy] (run ops1 (constructor sock0))).
    rewrite <- !run_app.
    destruct (Hcount (ops1 ++ [Destroy] ++ ops2) (constructor sock0)) as [-> _].
    rewrite Hev0, Hst0, !existsb_app. cbn [existsb is_destroy].
    rewrite orb_true_r. reflexivity.
  - apply Hquiet. apply destroy_events.
Qed.

End Histories.

(** ** Frames passing through the adapter *)

Section Forwarding.
Import MumbleAudioStream Wiring Trace.

Variable sock0 : Socket.
Variable a0 : addr.
Hypothesis handler_present : decodeAudio sock0 = VFunction a0.
Hypothesis handler_host : nth_error (functions sock0) a0 = Some HostFn.

Lemma run_destroyed_history (ops : list Op) :
  forall s : Stream,
    destroyed sock0 a0 s ->
    host_frames (events (run ops s)) = host_frames (events s) ++ inbound_frames ops /\
    delivered (events (run ops s)) = delivered (events s).
Proof.
  induction ops as [|op ops IH]; intros s Hd;
    cbn [run fold_left inbound_frames].
  - rewrite app_nil_r. auto.
  - fold (run ops (step s op)).
    destruct op as [audioData c t term|data|]; cbn [step].
    + destruct (IH (snd (sendAudio s audioData c t term))) as [-> ->].
      { eapply destroyed_same_wiring; [apply sendAudio_same_wiring|exact Hd]. }
      rewrite sendAudio_events, host_frames_app, delivered_app. cbv zeta.
      destruct (map_EvWrite
                  (if Z.of_nat (length (createAudioPacket c t (sequence s)
                                          audioData term)) <=? 0xffffffff
                   then [tunnel_frame (createAudioPacket c t (sequence s)
                                         audioData term)]
                   else [])) as (_ & -> & -> & _).
      rewrite !app_nil_r. auto.
    + destruct (IH (inbound s data)) as [-> ->].
      { eapply destroyed_same_wiring; [apply inbound_same_wiring|exact Hd]. }
      rewrite (inbound_destroyed sock0 a0 handler_host s data Hd).
      cbn [emit events]. rewrite host_frames_app, delivered_app.
      cbn [host_frames delivered]. rewrite <- app_assoc, app_nil_r. auto.
    + rewrite (destroy_destroyed sock0 a0 s Hd). apply IH. exact Hd.
Qed.

Lemma run_attached_history (ops : list Op) :
  forall s : Stream,
    attached sock0 a0 s ->
    host_frames (events (run ops s)) = host_frames (events s) ++ inbound_frames ops /\
    delivered (events (run ops s))
    = delivered (events s) ++ parsed (inbound_frames (before_destroy ops)).
Proof.
  induction ops as [|op ops IH]; intros s Ha;
    cbn [run fold_left inbound_frames before_destroy].
  - cbn [parsed flat_map]. rewrite !app_nil_r. auto.
  - fold (run ops (step s op)).
    destruct op as [audioData c t term|data|]; cbn [step inbound_frames].
    + destruct (IH (snd (sendAudio s audioData c t term))) as [-> ->].
      { eapply attached_same_wiring; [apply sendAudio_same_wiring|exact Ha]. }
      rewrite sendAudio_events, host_frames_app, delivered_app. cbv zeta.
      destruct (map_EvWrite
                  (if Z.of_nat (length (createAudioPacket c t (sequence s)
                                          audioData term)) <=? 0xffffffff
                   then [tunnel_frame (createAudioPacket c t (sequence s)
                                         audioData term)]
                   else [])) as (_ & -> & -> & _).
      rewrite !app_nil_r. auto.
    + destruct (IH (inbound s data)) as [-> ->].
      { eapply attached_same_wiring; [apply inbound_same_wiring|exact Ha]. }
      rewrite (inbound_attached sock0 a0 handler_host s data Ha).
      unfold parsed. cbn [flat_map]. fold (parsed (inbound_frames (before_destroy ops))).
      destruct (parseAudioPacket data) as [packet|]; cbn [emit events];
        rewrite !host_frames_app, !delivered_app;
        cbn [host_frames delivered app];
        rewrite <- ?app_assoc, ?app_nil_r; cbn [app]; auto.
    + destruct (destroy_attached sock0 a0 s Ha) as [Hd He].
      destruct (run_destroyed_history ops (destroy s) Hd) as [-> ->].
      rewrite He, host_frames_app, delivered_app.
      cbn [host_frames delivered parsed flat_map inbound_frames].
      rewrite !app_nil_r. auto.
Qed.

End Forwarding.

Section ForwardingClaims.
Import MumbleAudioStream Wiring Trace.

(** X13.  Over the whole life of a stream built on a socket with a host
    handler, that handler is called with exactly the raw frames that
    arrived, each once and in order of arrival, before and after [destroy]
    alike; and the subscribers are delivered exactly the packets of those
    frames that parse and that arrived before the first [destroy], in the
    same order. *)
Theorem frames_forwarded_in_order
    (sock0 : Socket) (a0 : addr) (ops : list Op) :
  decodeAudio sock0 = VFunction a0 ->
  nth_error (functions sock0) a0 = Some HostFn ->
  let s := run ops (constructor sock0) in
  host_frames (events s) = inbound_frames ops /\
  delivered (events s) = parsed (inbound_frames (before_destroy ops)).
Proof.
  intros Hhandler Hhost s.
  pose proof (constructor_attached sock0 a0 Hhandler) as Ha.
  destruct (run_attached_history sock0 a0 Hhost ops (constructor sock0) Ha)
    as [Hh Hd].
  assert (Hev0 : events (constructor sock0) = [])
    by (unfold constructor, hookAudioDecoding; cbn [socket];
        destruct (decodeAudio sock0); reflexivity).
  unfold s. rewrite Hh, Hd, Hev0. auto.
Qed.

Lemma frames_forwarded_in_order_witness :
  let sock0 := mkSocket [HostFn] (VFunction 0%nat) (fun _ => Resolved) in
  let ops := [Inbound [x20]; Inbound []; Send [x0a] Opus 0 false; Destroy;
              Inbound [x80; x01; x02; x00]] in
  let s := run ops (constructor sock0) in
  host_frames (events s) = inbound_frames ops /\
  delivered (events s) = parsed (inbound_frames (before_destroy ops)).
Proof.
  apply (frames_forwarded_in_order
           (mkSocket [HostFn] (VFunction 0%nat) (fun _ => Resolved)) 0%nat
           [Inbound [x20]; Inbound []; Send [x0a] Opus 0 false; Destroy;
            Inbound [x80; x01; x02; x00]]).
  - reflexivity.
  - reflexivity.
Defined.

(** X14.  On a socket whose [decodeAudio] is not a function the adapter
    installs nothing: through any sequence of sends, inbound frames and
    [destroy] calls the socket stays exactly as it was found, no handler
    is called and no packet is delivered. *)
Theorem no_handler_no_hook (sock0 : Socket) (ops : list Op) :
  decodeAudio sock0 = VOther ->
  let s := run ops (constructor sock0) in
  socket s = sock0 /\
  originalDecodeAudio s = None /\
  host_frames (events s) = [] /\
  delivered (events s) = [].
Proof.
  intros Hother.
  assert (Hgen : forall (l : list Op) (s : Stream),
             socket s = sock0 -> originalDecodeAudio s = None ->
             socket (run l s) = sock0 /\
             originalDecodeAudio (run l s) = None /\
             host_frames (events (run l s)) = host_frames (events s) /\
             delivered (events (run l s)) = delivered (events s)).
  { induction l as [|op l IH]; intros s Hs Ho; cbn [run fold_left]; [auto|].
    fold (run l (step s op)).
    destruct op as [audioData c t term|data|]; cbn [step].
    - destruct (sendAudio_same_wiring s audioData c t term) as [(Hs' & _ & Ho') _].
      destruct (IH (snd (sendAudio s audioData c t term))) as (-> & -> & -> & ->);
        [congruence|congruence|].
      rewrite sendAudio_events, host_frames_app, delivered_app. cbv zeta.
      destruct (map_EvWrite
                  (if Z.of_nat (length (createAudioPacket c t (sequence s)
                                          audioData term)) <=? 0xffffffff
                   then [tunnel_frame (createAudioPacket c t (sequence s)
                                         audioData term)]
                   else [])) as (_ & -> & -> & _).
      rewrite !app_nil_r. auto.
    - assert (Hin : inbound s data = s)
        by (unfold inbound; rewrite Hs, Hother; reflexivity).
      rewrite Hin. apply IH; assumption.
    - assert (Hd : socket (destroy s) = sock0 /\
                   originalDecodeAudio (destroy s) = None).
      { unfold destroy, audioSubject_complete.
        destruct (audioSubject_isStopped s); cbn [originalDecodeAudio emit];
          rewrite Ho; cbn; auto. }
      destruct Hd as [Hs' Ho'].
      destruct (IH (destroy s) Hs' Ho') as (-> & -> & -> & ->).
      destruct (destroy_events s) as [_ ->].
      rewrite host_frames_app, delivered_app.
      destruct (audioSubject_isStopped s); cbn [host_frames delivered];
        rewrite !app_nil_r; auto. }
  cbv zeta.
  assert (Hc : constructor sock0 = mkStream sock0 false 0 None [])
    by (unfold constructor, hookAudioDecoding; cbn [socket];
        rewrite Hother; reflexivity).
  rewrite Hc. apply Hgen; reflexivity.
Qed.

Lemma no_handler_no_hook_witness :
  let sock0 := mkSocket [] VOther (fun _ => Resolved) in
  let ops := [Inbound [x20]; Send [x0a] Opus 0 false; Destroy; Inbound [x20]] in
  let s := run ops (constructor sock0) in
  socket s = sock0 /\
  originalDecodeAudio s = None /\
  host_frames (events s) = [] /\
  delivered (events s) = [].
Proof.
  apply (no_handler_no_hook (mkSocket [] VOther (fun _ => Resolved))
           [Inbound [x20]; Send [x0a] Opus 0 false; Destroy; Inbound [x20]]).
  reflexivity.
Defined.

End ForwardingClaims.

(** ** From a send to the packet a receiver parses *)

Section EndToEnd.
Import MumbleAudioStream Wiring Trace.

Lemma parse_relayed_created
    (c : AudioCodec) (t seq session : Z) (payload : Buffer) (term : bool) :
  0 <= t <= 31 -> 0 <= seq < 2 ^ 31 -> 0 <= session < 2 ^ 31 ->
  (c = Opus -> Z.of_nat (length payload) <= 0x1fff) ->
  (c <> Opus -> term = false) ->
  parseAudioPacket (relayed session (createAudioPacket c t seq payload term))
  = Some (mkPacket session (codec_tag c) t seq payload term).
Proof.
  intros Ht Hseq Hsession Hopus Hterm.
  rewrite relayed_createAudioPacket.
  destruct (Z.eqb_spec (codec_tag c) (codec_tag Opus)) as [Heq|Hne].
  - apply codec_tag_Opus in Heq. subst c. specialize (Hopus eq_refl).
    rewrite parse_relayed_opus by lia.
    destruct (Z.ltb_spec (Z.of_nat (length payload)) (Z.of_nat (length payload)));
      [lia|].
    rewrite Nat2Z.id, firstn_all. reflexivity.
  - assert (Hc : c <> Opus) by (intros ->; apply Hne; reflexivity).
    rewrite (Hterm Hc).
    destruct (header_pack c t Ht) as (Hh & Hcodec & Htg).
    cbv zeta in Hh, Hcodec, Htg.
    rewrite parseAudioPacket_layout by assumption.
    rewrite Z_of_byte_of_Z by exact Hh. rewrite Hcodec, Htg.
    apply Z.eqb_neq in Hne. rewrite Hne. reflexivity.
Qed.

Lemma createAudioPacket_length_le (c : AudioCodec) (t seq : Z)
    (payload : Buffer) (term : bool) :
  (length (createAudioPacket c t seq payload term) <= length payload + 8)%nat.
Proof.
  unfold createAudioPacket. cbv zeta.
  pose proof (writeVarint_length seq) as Hseq.
  destruct (codec_tag c =? codec_tag Opus).
  - destruct (opus_field_range (Z.of_nat (length payload)) term) as (Hr & _ & _).
    cbv zeta in Hr.
    assert (Hf : (length (writeVarint
                            (if term
                             then JS.or (JS.and (Z.of_nat (length payload)) 0x1fff) 0x2000
                             else JS.and (Z.of_nat (length payload)) 0x1fff))
                  <= 2)%nat)
      by (apply writeVarint_minimal_bound;
          [change (128 ^ Z.of_nat 2) with (2 ^ 14)|]; lia).
    rewrite !length_app. cbn [Buffer_from map length]. lia.
  - rewrite !length_app. cbn [Buffer_from map length]. lia.
Qed.

Lemma skipn_tunnel_frame (packet : Buffer) : skipn 6 (tunnel_frame packet) = packet.
Proof. reflexivity. Qed.

Lemma sendAudio_frame_parses
    (s : Stream) (payload : Buffer) (c : AudioCodec) (t session : Z) (term : bool) :
  0 <= t <= 31 -> 0 <= sequence s < 2 ^ 31 -> 0 <= session < 2 ^ 31 ->
  (c = Opus -> Z.of_nat (length payload) <= 0x1fff) ->
  (c <> Opus -> term = false) ->
  Z.of_nat (length payload) + 8 <= 0xffffffff ->
  let frame := tunnel_frame (createAudioPacket c t (sequence s) payload term) in
  fst (sendAudio s payload c t term) = write (socket s) frame /\
  events (snd (sendAudio s payload c t term)) = events s ++ [EvWrite frame] /\
  parseAudioPacket (relayed session (skipn 6 frame))
  = Some (mkPacket session (codec_tag c) t (sequence s) payload term).
Proof.
  intros Ht Hseq Hsession Hopus Hterm Hsize. cbv zeta.
  pose proof (createAudioPacket_length_le c t (sequence s) payload term) as Hle.
  rewrite sendAudio_spec. cbv zeta.
  destruct (Z.leb_spec
              (Z.of_nat (length (createAudioPacket c t (sequence s) payload term)))
              0xffffffff) as [_|Hbig]; [|lia].
  cbn [fst snd emit events].
  split; [reflexivity|]. split; [reflexivity|].
  rewrite skipn_tunnel_frame. apply parse_relayed_created; assumption.
Qed.

(** X15.  What a send puts on the wire is what a receiver gets: after any
    history with fewer than 2^31 sends, the tunnel frame that [sendAudio]
    writes, stripped of its six prefix bytes and relayed with the sender's
    session, parses to the packet that was sent, carrying the number of
    earlier sends as its sequence; and the send settles as the transport's
    write of that frame settles. *)
Theorem send_relay_parse
    (sock0 : Socket) (ops : list Op) (payload : Buffer) (c : AudioCodec)
    (t session : Z) (term : bool) :
  0 <= t <= 31 -> 0 <= session < 2 ^ 31 ->
  (c = Opus -> Z.of_nat (length payload) <= 0x1fff) ->
  (c <> Opus -> term = false) ->
  Z.of_nat (length payload) + 8 <= 0xffffffff ->
  Z.of_nat (length (filter is_send ops)) < 2 ^ 31 ->
  let s := run ops (constructor sock0) in
  exists frame : Buffer,
    written (events (snd (sendAudio s payload c t term)))
    = written (events s) ++ [frame] /\
    fst (sendAudio s payload c t term) = write (socket s) frame /\
    parseAudioPacket (relayed session (skipn 6 frame))
    = Some (mkPacket session (codec_tag c) t
              (Z.of_nat (length (filter is_send ops))) payload term).
Proof.
  intros Ht Hsession Hopus Hterm Hsize Hcount s.
  assert (Hn : sequence s = Z.of_nat (length (filter is_send ops)))
    by (unfold s; rewrite run_sequence, constructor_sequence; lia).
  destruct (sendAudio_frame_parses s payload c t session term)
    as (Hout & Hev & Hparse); try assumption; [lia|].
  exists (tunnel_frame (createAudioPacket c t (sequence s) payload term)).
  rewrite Hev, written_app. cbn [written].
  rewrite <- Hn. auto.
Qed.

Lemma send_relay_parse_witness :
  let sock0 := mkSocket [HostFn] (VFunction 0%nat) (fun _ => Resolved) in
  let ops := [Send [x01] Opus 0 false; Inbound [x20]; Send [x02] Speex 1 false] in
  let s := run ops (constructor sock0) in
  exists frame : Buffer,
    written (events (snd (sendAudio s [x0a; x0b] Opus 5 true)))
    = written (events s) ++ [frame] /\
    fst (sendAudio s [x0a; x0b] Opus 5 true) = write (socket s) frame /\
    parseAudioPacket (relayed 77 (skipn 6 frame))
    = Some (mkPacket 77 (codec_tag Opus) 5
              (Z.of_nat (length (filter is_send ops))) [x0a; x0b] true).
Proof.
  apply (send_relay_parse
           (mkSocket [HostFn] (VFunction 0%nat) (fun _ => Resolved))
           [Send [x01] Opus 0 false; Inbound [x20]; Send [x02] Speex 1 false]
           [x0a; x0b] Opus 5 77 true).
  - lia.
  - lia.
  - intros _. simpl. lia.
  - intros H. exfalso. apply H. reflexivity.
  - simpl. lia.
  - simpl. lia.
Defined.

(** X16.  A send given only the audio data goes out as Opus, to target 0
    and without the terminator flag: for a payload of at most 0x1fff bytes
    the written frame, unwrapped and relayed, parses to exactly that packet
    with the stream's current sequence number. *)
Theorem sendAudio_defaults
    (s : Stream) (payload : Buffer) (session : Z) :
  0 <= sequence s < 2 ^ 31 -> 0 <= session < 2 ^ 31 ->
  Z.of_nat (length payload) <= 0x1fff ->
  exists frame : Buffer,
    events (snd (sendAudio_optional s payload None None None))
    = events s ++ [EvWrite frame] /\
    sequence (snd (sendAudio_optional s payload None None None))
    = sequence s + 1 /\
    parseAudioPacket (relayed session (skipn 6 frame))
    = Some (mkPacket session (codec_tag Opus) 0 (sequence s) payload false).
Proof.
  intros Hseq Hsession Hlen. unfold sendAudio_optional.
  assert (Hopus : Opus = Opus -> Z.of_nat (length payload) <= 0x1fff)
    by (intros _; exact Hlen).
  assert (Hterm : Opus <> Opus -> false = false) by (intros _; reflexivity).
  assert (Hsize : Z.of_nat (length payload) + 8 <= 0xffffffff) by lia.
  assert (Ht : 0 <= 0 <= 31) by lia.
  destruct (sendAudio_frame_parses s payload Opus 0 session false
              Ht Hseq Hsession Hopus Hterm Hsize) as (_ & Hev & Hparse).
  exists (tunnel_frame (createAudioPacket Opus 0 (sequence s) payload false)).
  split; [exact Hev|]. split; [|exact Hparse].
  apply sendAudio_same_wiring.
Qed.

Lemma sendAudio_defaults_witness :
  let s := constructor (mkSocket [HostFn] (VFunction 0%nat) (fun _ => Resolved)) in
  exists frame : Buffer,
    events (snd (sendAudio_optional s [x0a; x0b] None None None))
    = events s ++ [EvWrite frame] /\
    sequence (snd (sendAudio_optional s [x0a; x0b] None None None))
    = sequence s + 1 /\
    parseAudioPacket (relayed 3 (skipn 6 frame))
    = Some (mkPacket 3 (codec_tag Opus) 0 (sequence s) [x0a; x0b] false).
Proof.
  apply (sendAudio_defaults
           (constructor (mkSocket [HostFn] (VFunction 0%nat) (fun _ => Resolved)))
           [x0a; x0b] 3).
  - vm_compute. split; [discriminate|reflexivity].
  - lia.
  - simpl. lia.
Defined.

End EndToEnd.
